(** * Exam seating allocation engine

    A shallow embedding of [ExamSeatingSystem.check_clashes] and
    [ExamSeatingSystem.allocate_session] (seating_arrangement.py) and the
    properties of the allocation engine.

    Python dictionaries are finite maps ([gmap]), Python integers are [Z],
    Python lists are lists.  The methods of [ExamSeatingSystem] run in a
    state monad over the object's fields. *)

From Stdlib Require Import ZArith Lia Ascii.
From stdpp Require Import gmap strings list fin_maps sorting pretty.

Local Open Scope Z_scope.

#[local] Set Warnings "-clear-no-such-hyp".

(** ** Data model *)

(** An entry of [self.schedule]; the engine reads 'IsoDate' and 'Day'
    with [.get(key, '')], so these two keys may be absent. *)
Module Slot.
Record t := mk {
  Date : string;
  IsoDate : option string;
  Day : option string;
  Session : string;
  Courses : list string
}.
End Slot.

(** An entry of [self.rooms]. *)
Module Room.
Record t := mk {
  Room : string;
  Capacity : Z;
  filled : Z;
  assignments : gmap string (list string)
}.
End Room.

(** An entry of [self.allocations]. *)
Module Alloc.
Record t := mk {
  Date : string;
  IsoDate : string;
  Day : string;
  Session : string;
  Course : string;
  Room : string;
  Count : Z;
  Students : list string
}.
End Alloc.

(** An entry of [self.room_stats]. *)
Module Stat.
Record t := mk {
  Date : string;
  Session : string;
  Room : string;
  Allocated : Z;
  Free : Z
}.
End Stat.

(** The fields of an [ExamSeatingSystem] object. *)
Record System := mkSystem {
  schedule : list Slot.t;
  course_enrollments : gmap string (list string);
  student_names : gmap string string;
  rooms : list Room.t;
  allocations : list Alloc.t;
  room_stats : list Stat.t
}.

Definition set_rooms (rs : list Room.t) (self : System) : System :=
  mkSystem (schedule self) (course_enrollments self) (student_names self)
           rs (allocations self) (room_stats self).

Definition set_allocations (al : list Alloc.t) (self : System) : System :=
  mkSystem (schedule self) (course_enrollments self) (student_names self)
           (rooms self) al (room_stats self).

Definition set_room_stats (st : list Stat.t) (self : System) : System :=
  mkSystem (schedule self) (course_enrollments self) (student_names self)
           (rooms self) (allocations self) st.

(** ** The state monad of the methods *)

Definition M (A : Type) : Type := System → A * System.

Global Instance M_ret : MRet M := λ A x self, (x, self).
Global Instance M_bind : MBind M :=
  λ A B f m self, let '(x, self') := m self in f x self'.

Definition gets {A} (f : System → A) : M A := λ self, (f self, self).
Definition modify (f : System → System) : M unit := λ self, (tt, f self).

(** ** [dict.get(key, [])] on the enrollment index *)

Definition get_list (m : gmap string (list string)) (k : string) : list string :=
  default [] (m !! k).

(** ** check_clashes *)

(** [for roll in students]: [None] is the early [return True], [Some seen]
    the dictionary [seen_students] after the loop. *)
Fixpoint check_rolls (course : string) (students : list string)
    (seen_students : gmap string string) : option (gmap string string) :=
  match students with
  | [] => Some seen_students
  | roll :: students' =>
      if decide (is_Some (seen_students !! roll)) then None
      else check_rolls course students' (<[roll := course]> seen_students)
  end.

(** [for course in courses_in_slot]. *)
Fixpoint check_courses (enr : gmap string (list string))
    (courses_in_slot : list string) (seen_students : gmap string string) : bool :=
  match courses_in_slot with
  | [] => false
  | course :: courses' =>
      let students := get_list enr course in
      match check_rolls course students seen_students with
      | None => true
      | Some seen_students' => check_courses enr courses' seen_students'
      end
  end.

Definition check_clashes (courses_in_slot : list string) : M bool :=
  enr ← gets course_enrollments;
  mret (check_courses enr courses_in_slot ∅).

(** ** sorted(courses, key=..., reverse=True)

    Python's [sorted] is a stable sort, and stays stable under
    [reverse=True]: elements with equal keys keep their source order.  The
    stable descending sort is modelled by insertion: an element is moved
    past the elements of strictly greater key only. *)

Section Sorted.
Context {A : Type} (key : A → nat).

Fixpoint insert_desc (x : A) (l : list A) : list A :=
  match l with
  | [] => [x]
  | y :: l' =>
      if decide (key x < key y)%nat then y :: insert_desc x l'
      else x :: y :: l'
  end.

Definition sorted (l : list A) : list A := foldr insert_desc [] l.

(** Descending order of the keys. *)
Definition desc (a b : A) : Prop := (key b ≤ key a)%nat.
End Sorted.

(** The sort key [lambda c: len(self.course_enrollments.get(c, []))] and
    the sorted course list of a slot. *)
Definition enrollment_size (enr : gmap string (list string)) (c : string) : nat :=
  length (get_list enr c).

Definition sort_courses (enr : gmap string (list string))
    (courses : list string) : list string :=
  sorted (enrollment_size enr) courses.

(** ** allocate_session *)

Definition reset (r : Room.t) : Room.t :=
  Room.mk (Room.Room r) (Room.Capacity r) 0 ∅.

Section Allocate.
Variables (slot_info : Slot.t) (buffer : Z) (mode : string).

Definition eff_cap (room : Room.t) : Z := Z.max 0 (Room.Capacity room - buffer).

Definition subj_limit (room : Room.t) : Z :=
  if String.eqb mode "sparse" then eff_cap room / 2 else eff_cap room.

Definition space_in_room (room : Room.t) : Z := eff_cap room - Room.filled room.

(** The local [take = min(len(students), space_in_room, subj_limit)]. *)
Definition take_count (students : list string) (room : Room.t) : Z :=
  Z.min (Z.min (Z.of_nat (length students)) (space_in_room room)) (subj_limit room).

Definition record (course : string) (room : Room.t) (n : Z)
    (batch : list string) : Alloc.t :=
  Alloc.mk (Slot.Date slot_info) (default "" (Slot.IsoDate slot_info))
           (default "" (Slot.Day slot_info)) (Slot.Session slot_info)
           course (Room.Room room) n batch.

(** The body of [for room in self.rooms] for one room, after the
    [if not students: break] test: the room, the working list [students]
    and the allocation log afterwards.  Under [if take > 0] the batch
    [students[:take]] leaves the working list, joins
    [room['assignments'][course]] (created empty when absent) and goes
    into one appended record. *)
Definition seat (course : string) (students : list string) (room : Room.t)
    (allocations : list Alloc.t) : Room.t * list string * list Alloc.t :=
  let n := take_count students room in
  if decide (0 < n) then
    let batch := take (Z.to_nat n) students in
    let students' := drop (Z.to_nat n) students in
    let room' :=
      Room.mk (Room.Room room) (Room.Capacity room) (Room.filled room + n)
        (<[course := get_list (Room.assignments room) course ++ batch]>
           (Room.assignments room)) in
    (room', students', allocations ++ [record course room n batch])
  else (room, students, allocations).

(** [for room in self.rooms]: the rooms, the allocation log and the
    course's unseated candidates when the loop ends. *)
Fixpoint allocate_rooms (course : string) (students : list string)
    (rooms : list Room.t) (allocations : list Alloc.t)
    : list Room.t * list Alloc.t * list string :=
  match rooms with
  | [] => ([], allocations, students)
  | room :: rooms' =>
      match students with
      | [] => (rooms, allocations, students)
      | _ :: _ =>
          let '(room', students', allocations') :=
            seat course students room allocations in
          let '(rooms'', allocations'', students'') :=
            allocate_rooms course students' rooms' allocations' in
          (room' :: rooms'', allocations'', students'')
      end
  end.

(** [for course in courses_sorted]; a course without candidates is
    skipped ([continue]). *)
Fixpoint allocate_courses (enr : gmap string (list string))
    (courses_sorted : list string) (rooms : list Room.t)
    (allocations : list Alloc.t) : list Room.t * list Alloc.t :=
  match courses_sorted with
  | [] => (rooms, allocations)
  | course :: courses' =>
      match get_list enr course with
      | [] => allocate_courses enr courses' rooms allocations
      | students =>
          let '(rooms', allocations', _) :=
            allocate_rooms course students rooms allocations in
          allocate_courses enr courses' rooms' allocations'
      end
  end.

(** The entry that the closing [for r in self.rooms] loop appends to
    [self.room_stats]. *)
Definition stat (r : Room.t) : Stat.t :=
  Stat.mk (Slot.Date slot_info) (Slot.Session slot_info) (Room.Room r)
          (Room.filled r) (Room.Capacity r - Room.filled r).

(** The rooms are reset and the courses sorted before the clash check;
    a clash returns at once (the warning is only logged). *)
Definition allocate_session : M unit :=
  modify (λ self, set_rooms (reset <$> rooms self) self);;
  let courses := Slot.Courses slot_info in
  enr ← gets course_enrollments;
  let courses_sorted := sort_courses enr courses in
  clash ← check_clashes courses;
  if (clash : bool) then mret tt
  else
    modify (λ self,
      let '(rs, al) :=
        allocate_courses enr courses_sorted (rooms self) (allocations self) in
      set_allocations al (set_rooms rs self));;
    modify (λ self, set_room_stats (room_stats self ++ (stat <$> rooms self)) self).
End Allocate.

(** ** Auxiliary notions used by the statements *)

(** The rosters of a course list, one after the other. *)
Definition rosters (enr : gmap string (list string)) (courses : list string)
    : list string :=
  courses ≫= get_list enr.

(** Some candidate is enrolled in two different courses of the list. *)
Definition shares_candidate (enr : gmap string (list string))
    (courses : list string) : Prop :=
  ∃ roll c1 c2, c1 ≠ c2 ∧ c1 ∈ courses ∧ c2 ∈ courses ∧
    roll ∈ get_list enr c1 ∧ roll ∈ get_list enr c2.

(** What a call appended to a log. *)
Definition appended {A} (before after : list A) : list A :=
  drop (length before) after.

(** The sum of [f] over a list. *)
Definition sumZ {A} (f : A → Z) (l : list A) : Z :=
  foldr (λ x acc, f x + acc) 0 l.

(** What every room visit keeps of a room: its name and capacity, and
    a fill within the effective capacity. *)
Definition room_step (buf : Z) (r r' : Room.t) : Prop :=
  Room.Room r' = Room.Room r ∧ Room.Capacity r' = Room.Capacity r ∧
  (Room.filled r ≤ eff_cap buf r → Room.filled r' ≤ eff_cap buf r').

(** The seats of room [name] taken, by the rooms' counters and by the
    records of a log. *)
Definition fill_of (name : string) (r : Room.t) : Z :=
  if decide (Room.Room r = name) then Room.filled r else 0.

Definition count_of (name : string) (a : Alloc.t) : Z :=
  if decide (Alloc.Room a = name) then Alloc.Count a else 0.

(** The same, for the candidates of one course. *)
Definition seated_of (name course : string) (r : Room.t) : Z :=
  if decide (Room.Room r = name)
  then Z.of_nat (length (get_list (Room.assignments r) course)) else 0.

Definition course_count_of (name course : string) (a : Alloc.t) : Z :=
  if decide (Alloc.Room a = name ∧ Alloc.Course a = course)
  then Alloc.Count a else 0.

(** The candidates of a course in the records of a log, in log order. *)
Definition seated_in (course : string) (log : list Alloc.t) : list string :=
  filter (λ a, Alloc.Course a = course) log ≫= Alloc.Students.

(** In sparse mode, while the courses [cs] are still to be processed: no
    candidate of theirs sits in the room yet, and no course holds more than
    half of the effective capacity. *)
Definition sparse_ok (enr : gmap string (list string)) (buf : Z)
    (cs : list string) (r : Room.t) : Prop :=
  ∀ c, (c ∈ cs → get_list enr c ≠ [] → get_list (Room.assignments r) c = []) ∧
       Z.of_nat (length (get_list (Room.assignments r) c)) ≤ eff_cap buf r / 2.

(** The state after a call, and what the call appended to the two logs. *)
Definition after (si : Slot.t) (buf : Z) (mode : string) (self : System) : System :=
  (allocate_session si buf mode self).2.

Definition new_records (si : Slot.t) (buf : Z) (mode : string) (self : System)
    : list Alloc.t :=
  appended (allocations self) (allocations (after si buf mode self)).

Definition new_stats (si : Slot.t) (buf : Z) (mode : string) (self : System)
    : list Stat.t :=
  appended (room_stats self) (room_stats (after si buf mode self)).

(** ** Sample data *)

Definition sample_slot (courses : list string) : Slot.t :=
  Slot.mk "01-12-2025" (Some "20251201") (Some "Monday") "Morning" courses.

Definition sample_system (enr : list (string * list string))
    (pool : list (string * Z)) : System :=
  mkSystem [] (list_to_map enr) ∅
           ((λ p, Room.mk p.1 p.2 0 ∅) <$> pool) [] [].

(** One course whose roster lists a candidate twice. *)
Definition twice_listed : System :=
  sample_system [("A", ["r1"; "r1"])] [("R1", 10)].

(** Two courses with a common candidate. *)
Definition clashing : System :=
  sample_system [("A", ["r1"; "r2"]); ("B", ["r2"; "r3"])] [("R1", 10)].

(** Two courses without a common candidate, two rooms. *)
Definition clean : System :=
  sample_system [("A", ["a1"; "a2"; "a3"]); ("B", ["b1"; "b2"])]
                [("R1", 4); ("R2", 3)].

(** A room smaller than the buffer of 5 seats. *)
Definition small_room : System :=
  sample_system [("A", ["a1"; "a2"; "a3"])] [("R1", 3)].

(** Rosters of a given size: [prefix0], [prefix1], ... *)
Definition roll_numbers (prefix : string) (n : nat) : list string :=
  (λ i, prefix +:+ pretty i) <$> seq 0 n.

(** Courses A (50 candidates), B (10) and C (30). *)
Definition three_courses : System :=
  sample_system [("A", roll_numbers "a" 50); ("B", roll_numbers "b" 10);
                 ("C", roll_numbers "c" 30)]
                [("R1", 60); ("R2", 40)].

(** One course of 12 candidates, one room of 10 seats. *)
Definition overflow : System :=
  sample_system [("A", roll_numbers "a" 12)] [("R1", 10)].

(** Two courses of 15 candidates, one room of 20 seats. *)
Definition shared_room : System :=
  sample_system [("A", roll_numbers "a" 15); ("B", roll_numbers "b" 15)]
                [("R1", 20)].

(** ** Further notions: rooms and records *)

(** The candidates in the lists of a room's [assignments]. *)
Definition assigned (r : Room.t) : Z :=
  sumZ (λ p, Z.of_nat (length p.2)) (map_to_list (Room.assignments r)).

(** What a room visit keeps together: a fill that is not negative and
    within the effective capacity. *)
Definition fill_ok (buf : Z) (r : Room.t) : Prop :=
  0 ≤ Room.filled r ≤ eff_cap buf r.

(** The room is filled to its effective capacity. *)
Definition full (buf : Z) (r : Room.t) : Prop :=
  Room.filled r = eff_cap buf r.

(** A record as [allocate_session] writes it for a slot: the slot's date,
    day and session, a count that is positive and is the number of its
    candidates. *)
Definition record_of_slot (si : Slot.t) (a : Alloc.t) : Prop :=
  Alloc.Date a = Slot.Date si ∧
  Alloc.IsoDate a = default "" (Slot.IsoDate si) ∧
  Alloc.Day a = default "" (Slot.Day si) ∧
  Alloc.Session a = Slot.Session si ∧
  0 < Alloc.Count a ∧
  Alloc.Count a = Z.of_nat (length (Alloc.Students a)).

(** ** app.py: the run over the schedule *)

(** The two labels of [st.selectbox("Allocation Mode", ["Dense", "Sparse"])]
    and what [mode.lower()] makes of them. *)
Inductive ModeChoice := Dense | Sparse.

Definition label (choice : ModeChoice) : string :=
  match choice with Dense => "Dense" | Sparse => "Sparse" end.

(** [str.lower] on ASCII text: the letters A-Z go to a-z. *)
Definition lower_char (a : ascii) : ascii :=
  let n := nat_of_ascii a in
  if decide (65 ≤ n ≤ 90)%nat then ascii_of_nat (n + 32) else a.

Fixpoint lower (s : string) : string :=
  match s with
  | EmptyString => EmptyString
  | String a s' => String (lower_char a) (lower s')
  end.

(** [for i, slot in enumerate(sys_obj.schedule):
       sys_obj.allocate_session(slot, buffer, mode.lower())]. *)
Fixpoint for_slots (slots : list Slot.t) (buffer : Z) (mode : string) : M unit :=
  match slots with
  | [] => mret tt
  | slot :: slots' =>
      allocate_session slot buffer mode;; for_slots slots' buffer mode
  end.

Definition process_schedule (buffer : Z) (choice : ModeChoice) : M unit :=
  sched ← gets schedule;
  for_slots sched buffer (lower (label choice)).

(** ** generate_attendance_sheets *)

(** The key [(IsoDate, Date, Day, Session, Room, Course)] of a record. *)
Definition sheet_key : Type :=
  string * string * string * string * string * string.

Definition key_of (alloc : Alloc.t) : sheet_key :=
  (Alloc.IsoDate alloc, Alloc.Date alloc, Alloc.Day alloc,
   Alloc.Session alloc, Alloc.Room alloc, Alloc.Course alloc).

(** The dictionary [grouped] with its insertion order, which
    [grouped.items()] follows: a list of keys with their candidates.
    [if key not in grouped: grouped[key] = []] and
    [grouped[key].extend(...)]: a known key keeps its place and gets the
    candidates at the end of its list, a new key comes last. *)
Fixpoint extend_group (key : sheet_key) (students : list string)
    (grouped : list (sheet_key * list string)) : list (sheet_key * list string) :=
  match grouped with
  | [] => [(key, students)]
  | (k, l) :: grouped' =>
      if decide (k = key) then (k, l ++ students) :: grouped'
      else (k, l) :: extend_group key students grouped'
  end.

(** [for alloc in self.allocations]. *)
Definition group_allocations (allocations : list Alloc.t)
    : list (sheet_key * list string) :=
  foldl (λ grouped alloc,
           extend_group (key_of alloc) (Alloc.Students alloc) grouped)
        [] allocations.

(** The dictionaries [exam_meta] and the entries of [student_objs]. *)
Record ExamMeta := mkExamMeta {
  meta_date : string;
  meta_shift : string;
  meta_room : string;
  meta_subject_name : string;
  meta_count : nat
}.

Record StudentObj := mkStudentObj {
  obj_name : string;
  obj_roll : string;
  obj_photo_filename : string
}.

Section Sheets.
(** [str.isalnum] on one character and [os.path.join] are Python's. *)
Variables (isalnum : ascii → bool) (os_path_join : string → string → string).

(** [x.isalnum() or x in " -_"]. *)
Definition safe_char (x : ascii) : bool :=
  isalnum x || bool_decide (x ∈ [" "; "-"; "_"]%char).

(** ["".join(x for x in course if x.isalnum() or x in " -_")]. *)
Fixpoint safe_course (course : string) : string :=
  match course with
  | EmptyString => EmptyString
  | String x course' =>
      if safe_char x then String x (safe_course course')
      else safe_course course'
  end.

Definition OUTPUT_DIR : string := "output".

(** The arguments of one call of [_generate_iitp_pdf]. *)
Definition sheet (student_names : gmap string string)
    (group : sheet_key * list string) : string * ExamMeta * list StudentObj :=
  let '(iso_date, disp_date, day, session, room, course, students) := group in
  let filename :=
    os_path_join OUTPUT_DIR
      (iso_date +:+ "_" +:+ session +:+ "_" +:+ room +:+ "_"
       +:+ safe_course course +:+ ".pdf") in
  let exam_meta :=
    mkExamMeta (disp_date +:+ " (" +:+ day +:+ ")") session room course
               (length students) in
  let student_objs :=
    (λ roll, mkStudentObj (default "Unknown" (student_names !! roll)) roll
                          (roll +:+ ".jpg")) <$> students in
  (filename, exam_meta, student_objs).

(** The calls of [_generate_iitp_pdf] that [generate_attendance_sheets]
    makes, in order. *)
Definition generate_attendance_sheets (self : System)
    : list (string * ExamMeta * list StudentObj) :=
  sheet (student_names self) <$> group_allocations (allocations self).
End Sheets.

(** ** _generate_iitp_pdf: the grid of student cards *)

(** A cell of the grid: the card of a student, or the padding [""]. *)
Inductive cell (C : Type) :=
  | Card (c : C)
  | Blank.
Arguments Card {C} c.
Arguments Blank {C}.

Definition columns : nat := 3.

Section Grid.
Context {A C : Type} (create_student_card : A → C).

(** [for student in students]: the rows completed and the row in hand. *)
Fixpoint grid_loop (students : list A) (grid_data : list (list (cell C)))
    (row_data : list (cell C)) : list (list (cell C)) * list (cell C) :=
  match students with
  | [] => (grid_data, row_data)
  | student :: students' =>
      let row_data := row_data ++ [Card (create_student_card student)] in
      if decide (length row_data = columns)
      then grid_loop students' (grid_data ++ [row_data]) []
      else grid_loop students' grid_data row_data
  end.

(** [while len(row_data) < columns: row_data.append("")], at most
    [fuel] turns. *)
Fixpoint pad_row (fuel : nat) (row_data : list (cell C)) : list (cell C) :=
  match fuel with
  | O => row_data
  | S fuel' =>
      if decide (length row_data < columns)%nat
      then pad_row fuel' (row_data ++ [Blank])
      else row_data
  end.

(** [grid_data] when [main_table] is built. *)
Definition student_grid (students : list A) : list (list (cell C)) :=
  let '(grid_data, row_data) := grid_loop students [] [] in
  match row_data with
  | [] => grid_data
  | _ :: _ => grid_data ++ [pad_row columns row_data]
  end.
End Grid.

(** ** Further sample data and notions for the sheets *)

Definition evening_slot (courses : list string) : Slot.t :=
  Slot.mk "01-12-2025" (Some "20251201") (Some "Monday") "Evening" courses.

(** The state [clean] with a schedule of two slots. *)
Definition two_slots : System :=
  mkSystem [sample_slot ["A"]; evening_slot ["B"; "A"]]
           (course_enrollments clean) ∅ (rooms clean) [] [].

(** [grouped.get(key)]: the candidates under a key of the dictionary. *)
Fixpoint students_of (key : sheet_key) (grouped : list (sheet_key * list string))
    : option (list string) :=
  match grouped with
  | [] => None
  | (k, l) :: grouped' =>
      if decide (k = key) then Some l else students_of key grouped'
  end.

(** The candidates that a log lists under a key, in log order. *)
Definition listed_under (key : sheet_key) (log : list Alloc.t) : list string :=
  filter (λ a, key_of a = key) log ≫= Alloc.Students.

(** What tells the slots of a schedule apart in the records: ISO
    date, date, day and session as [allocate_session] writes them. *)
Definition slot_id (si : Slot.t) : string * string * string * string :=
  (default "" (Slot.IsoDate si), Slot.Date si, default "" (Slot.Day si),
   Slot.Session si).

(** ** load_data: the loops over the rows read *)

(** [list.sort()] on a list of strings: ascending in the lexicographic
    order of the characters' codes; equal strings being the same string,
    the sorted list does not depend on the sorting algorithm. *)
Definition string_le (a b : string) : Prop := String.leb a b = true.

Global Instance string_le_dec (a b : string) : Decision (string_le a b) :=
  decide (String.leb a b = true).

Definition sort_strings (l : list string) : list string :=
  merge_sort string_le l.

(** [list.sort(key=...)]: the stable ascending sort by a key; an element
    is moved past the elements of strictly smaller key only. *)
Fixpoint insert_by {A} (key : A → Z) (x : A) (l : list A) : list A :=
  match l with
  | [] => [x]
  | y :: l' =>
      if decide (key y < key x) then y :: insert_by key x l'
      else x :: y :: l'
  end.

Definition sort_by {A} (key : A → Z) (l : list A) : list A :=
  foldr (insert_by key) [] l.

(** The capacity cell [row[c_col]] of a row of the room sheet, by what
    the loop makes of it: a cell for which [pd.notna] is false, a cell of
    which [int(...)] is [n], or a cell on which [int(...)] raises. *)
Inductive capacity_cell :=
  | Missing
  | Number (n : Z)
  | Invalid.

(** [int(row[c_col]) if pd.notna(row[c_col]) else 0], where it has a
    value. *)
Definition capacity_of (cell : capacity_cell) : Z :=
  match cell with
  | Number n => n
  | Missing | Invalid => 0
  end.

Section Loading.
(** [str.strip] is Python's; a cell is given by its [str(...)]. *)
Variable strip : string → string.

(** [val.lower() == 'nan'] holds for the texts n/N a/A n/N and no
    other, which is what [lower], on the ASCII letters, decides. *)
Definition clean_text (text : string) : string :=
  let val := strip text in
  if decide (lower val = "nan" ∨ val = "") then "" else val.

(** The body of the loop over the rows of the course-roll sheet; a row is
    the pair of [row[c_col]] and [row[r_col]]. *)
Definition add_enrollment (enr : gmap string (list string))
    (row : string * string) : gmap string (list string) :=
  let c_code := clean_text row.1 in
  let r_no := clean_text row.2 in
  if decide (c_code ≠ "" ∧ r_no ≠ "")
  then <[c_code := get_list enr c_code ++ [r_no]]> enr
  else enr.

(** The loop, and [for c in self.course_enrollments:
    self.course_enrollments[c].sort()] after it. *)
Definition load_enrollments (rows : list (string * string))
    (enr : gmap string (list string)) : gmap string (list string) :=
  sort_strings <$> foldl add_enrollment enr rows.

(** The room that a row of the room sheet gives, for the name cell
    [row[r_col]] and the capacity that the row's capacity cell stands
    for. *)
Definition room_of_row (name_cell : string) (capacity : Z) : Room.t :=
  Room.mk (clean_text name_cell) capacity 0 ∅.

(** [for _, row in df_rooms.iterrows(): self.rooms.append({...})]: the
    pool, and whether the loop came to its end.  A capacity cell on which
    [int(...)] raises leaves the loop, the room of that row not appended,
    for the [except] clause of [load_data]. *)
Fixpoint append_rooms (rows : list (string * capacity_cell))
    (rooms : list Room.t) : list Room.t * bool :=
  match rows with
  | [] => (rooms, true)
  | row :: rows' =>
      match row.2 with
      | Invalid => (rooms, false)
      | Missing => append_rooms rows' (rooms ++ [room_of_row row.1 0])
      | Number n => append_rooms rows' (rooms ++ [room_of_row row.1 n])
      end
  end.

(** The loop and [self.rooms.sort(key=lambda x: -x['Capacity'])] after
    it, which an exception in the loop skips.  The flag is false when
    [load_data] ends in its [except] clause and returns False. *)
Definition load_rooms (rows : list (string * capacity_cell))
    (rooms : list Room.t) : list Room.t * bool :=
  let '(rooms', completed) := append_rooms rows rooms in
  if completed then (sort_by (λ x, - Room.Capacity x) rooms', true)
  else (rooms', false).

(** The room of a row whose capacity cell [int(...)] accepts or
    [pd.notna] rejects. *)
Definition room_of (row : string * capacity_cell) : Room.t :=
  room_of_row row.1 (capacity_of row.2).

(** The loop over the rows of the CSV mapping, a row being the pair of
    [row.iloc[0]] and [row.iloc[1]]. *)
Definition add_csv_name (names : gmap string string)
    (row : string * string) : gmap string string :=
  let r_val := clean_text row.1 in
  let n_val := clean_text row.2 in
  if decide (r_val ≠ "") then <[r_val := n_val]> names else names.

(** The loop over the rows of the roll-name sheet. *)
Definition add_sheet_name (names : gmap string string)
    (row : string * string) : gmap string string :=
  let r_val := clean_text row.1 in
  if decide (r_val ≠ "" ∧ names !! r_val = None)
  then <[r_val := clean_text row.2]> names
  else names.

Definition load_names (csv_rows sheet_rows : list (string * string))
    (names : gmap string string) : gmap string string :=
  foldl add_sheet_name (foldl add_csv_name names csv_rows) sheet_rows.

(** The cleaned rolls that the rows give for a course, and the cleaned
    names that the rows give for a roll, in row order. *)
Definition rolls_for (c : string) (rows : list (string * string)) : list string :=
  (λ row, clean_text row.2)
    <$> filter (λ row, clean_text row.1 = c ∧ clean_text row.2 ≠ "") rows.

Definition names_for (r : string) (rows : list (string * string)) : list string :=
  (λ row, clean_text row.2) <$> filter (λ row, clean_text row.1 = r) rows.
End Loading.

(** What the enrollment loop keeps of every roster: a course code that
    is not empty, at least one roll, and no empty roll. *)
Definition roster_ok (c : string) (roster : list string) : Prop :=
  c ≠ "" ∧ roster ≠ [] ∧ "" ∉ roster.

(** A sample [strip]: blanks are dropped at both ends. *)
Fixpoint drop_leading (s : string) : string :=
  match s with
  | String " " s' => drop_leading s'
  | _ => s
  end.

Fixpoint drop_trailing (s : string) : string :=
  match s with
  | EmptyString => EmptyString
  | String c s' =>
      let t := drop_trailing s' in
      if decide (c = " "%char ∧ t = EmptyString) then EmptyString
      else String c t
  end.

Definition strip_blanks (s : string) : string := drop_trailing (drop_leading s).

(** The state that [load_data] leaves for a course-roll sheet with a
    doubled row. *)
Definition doubled_row : System :=
  mkSystem [] (load_enrollments strip_blanks
                 [("A", "r1"); ("A", " r2"); ("B", "r3"); ("A ", "r1")] ∅)
           ∅ [Room.mk "R1" 10 0 ∅] [] [].

(** The state that [load_data] leaves for a course-roll sheet in which
    courses A and B share the roll r2. *)
Definition loaded_clashing : System :=
  mkSystem [] (load_enrollments strip_blanks
                 [("A", "r1"); ("A", "r2"); ("B", "r2"); ("B", "r3")] ∅)
           ∅ [Room.mk "R1" 10 0 ∅] [] [].


(** ** The clash detector *)

Lemma check_rolls_spec course students seen :
  match check_rolls course students seen with
  | Some seen' =>
      NoDup students ∧ (∀ x, x ∈ students → x ∉ dom seen) ∧
      dom seen' = dom seen ∪ list_to_set students
  | None => ¬ (NoDup students ∧ ∀ x, x ∈ students → x ∉ dom seen)
  end.
Proof.
  revert seen. induction students as [|roll l IH]; intros seen; simpl.
  - split; [constructor|]. split; [set_solver|set_solver].
  - destruct (decide (is_Some (seen !! roll))) as [Hin|Hout].
    + intros [_ Hfree]. apply (Hfree roll); [set_solver|].
      by apply elem_of_dom.
    + specialize (IH (<[roll:=course]> seen)).
      rewrite <- elem_of_dom in Hout.
      destruct (check_rolls course l (<[roll:=course]> seen)) as [seen'|].
      * destruct IH as (Hnd & Hfree & Hdom).
        rewrite dom_insert_L in Hfree, Hdom.
        split; [|split].
        -- constructor; [|done]. intros Hl. apply (Hfree _ Hl). set_solver.
        -- intros x [->|Hx]%elem_of_cons; [done|].
           specialize (Hfree _ Hx). set_solver.
        -- rewrite Hdom. set_solver.
      * intros [Hnd Hfree]. apply IH. apply NoDup_cons in Hnd as [Hroll Hnd].
        split; [done|]. intros x Hx. rewrite dom_insert_L.
        specialize (Hfree x). set_solver.
Qed.


Lemma rosters_cons enr c cs :
  rosters enr (c :: cs) = get_list enr c ++ rosters enr cs.
Proof. reflexivity. Qed.

Lemma check_courses_false enr courses seen :
  check_courses enr courses seen = false ↔
  NoDup (rosters enr courses) ∧ ∀ x, x ∈ rosters enr courses → x ∉ dom seen.
Proof.
  revert seen. induction courses as [|c cs IH]; intros seen.
  - simpl. split; [|done]. intros _. split; [constructor|]. set_solver.
  - rewrite rosters_cons. simpl.
    pose proof (check_rolls_spec c (get_list enr c) seen) as Hrolls.
    destruct (check_rolls c (get_list enr c) seen) as [seen'|].
    + destruct Hrolls as (Hnd & Hfree & Hdom).
      rewrite IH, Hdom, NoDup_app. split.
      * intros [Hcs Hfree']. split.
        -- split; [done|]. split; [|done].
           intros x Hx Hx'. specialize (Hfree' _ Hx'). set_solver.
        -- intros x [Hx|Hx]%elem_of_app; [by apply Hfree|].
           specialize (Hfree' _ Hx). set_solver.
      * intros [(_ & Hdisj & Hcs) Hfree']. split; [done|].
        intros x Hx. specialize (Hdisj x). specialize (Hfree' x).
        set_solver.
    + split; [done|]. intros [(Hnd & _ & _)%NoDup_app Hfree].
      exfalso. apply Hrolls. split; [done|]. intros x Hx. apply Hfree.
      set_solver.
Qed.

Lemma check_clashes_run courses self :
  check_clashes courses self =
  (check_courses (course_enrollments self) courses ∅, self).
Proof. reflexivity. Qed.

Lemma check_clashes_false courses self :
  (check_clashes courses self).1 = false ↔
  NoDup (rosters (course_enrollments self) courses).
Proof.
  rewrite check_clashes_run. simpl. rewrite check_courses_false.
  split; [by intros [? _]|]. intros Hnd. split; [done|]. set_solver.
Qed.

Lemma check_clashes_true courses self :
  (check_clashes courses self).1 = true ↔
  ¬ NoDup (rosters (course_enrollments self) courses).
Proof.
  rewrite <- check_clashes_false.
  destruct (check_clashes courses self).1; split; congruence.
Qed.

Lemma roster_in_rosters enr c cs x :
  c ∈ cs → x ∈ get_list enr c → x ∈ rosters enr cs.
Proof. intros Hc Hx. apply list_elem_of_bind. eauto. Qed.

Lemma rosters_elem enr cs x :
  x ∈ rosters enr cs → ∃ c, c ∈ cs ∧ x ∈ get_list enr c.
Proof. intros (c & Hx & Hc)%list_elem_of_bind. eauto. Qed.

Lemma NoDup_rosters_roster enr cs c :
  NoDup (rosters enr cs) → c ∈ cs → NoDup (get_list enr c).
Proof.
  induction cs as [|c0 cs IH]; [by intros _ ?%elem_of_nil|].
  rewrite rosters_cons, NoDup_app. intros (Hc0 & _ & Hcs).
  intros [->|Hc]%elem_of_cons; auto.
Qed.

Lemma NoDup_rosters_disjoint enr cs c1 c2 x :
  NoDup (rosters enr cs) → c1 ∈ cs → c2 ∈ cs → c1 ≠ c2 →
  x ∈ get_list enr c1 → x ∈ get_list enr c2 → False.
Proof.
  induction cs as [|c0 cs IH]; [by intros _ ?%elem_of_nil|].
  rewrite rosters_cons, NoDup_app. intros (_ & Hdisj & Hcs).
  intros [->|H1]%elem_of_cons [->|H2]%elem_of_cons Hne Hx1 Hx2.
  - done.
  - apply (Hdisj x Hx1). by eapply roster_in_rosters.
  - apply (Hdisj x Hx2). by eapply roster_in_rosters.
  - by apply IH.
Qed.

(** A course with candidates occurs once in a clash-free course list. *)
Lemma NoDup_rosters_head enr c cs :
  NoDup (rosters enr (c :: cs)) → get_list enr c ≠ [] → c ∉ cs.
Proof.
  rewrite rosters_cons, NoDup_app. intros (_ & Hdisj & _) Hne Hc.
  destruct (get_list enr c) as [|x l] eqn:E; [done|].
  apply (Hdisj x); [by left|].
  eapply roster_in_rosters; [done|]. rewrite E. by left.
Qed.

Lemma shares_candidate_clash enr cs :
  shares_candidate enr cs → ¬ NoDup (rosters enr cs).
Proof.
  intros (x & c1 & c2 & Hne & H1 & H2 & Hx1 & Hx2) Hnd.
  exact (NoDup_rosters_disjoint enr cs c1 c2 x Hnd H1 H2 Hne Hx1 Hx2).
Qed.

Lemma NoDup_rosters_intro enr cs :
  NoDup cs → (∀ c, c ∈ cs → NoDup (get_list enr c)) →
  ¬ shares_candidate enr cs → NoDup (rosters enr cs).
Proof.
  induction cs as [|c cs IH]; [intros; constructor|].
  intros [Hc Hcs]%NoDup_cons Hrosters Hshare.
  rewrite rosters_cons, NoDup_app. split; [|split].
  - apply Hrosters. by left.
  - intros x Hx (c' & Hc' & Hx')%rosters_elem. apply Hshare.
    exists x, c, c'. repeat split; [|by left|by right|done|done].
    intros ->. done.
  - apply IH; [done|intros; apply Hrosters; by right|].
    intros (x & c1 & c2 & Hne & H1 & H2 & Hx). apply Hshare.
    exists x, c1, c2. repeat split; [done|by right|by right|apply Hx..].
Qed.

Lemma shares_candidate_dec enr cs :
  {shares_candidate enr cs} + {¬ shares_candidate enr cs}.
Proof.
  destruct (decide (Exists (λ c1, Exists (λ c2, c1 ≠ c2 ∧
      Exists (λ x, x ∈ get_list enr c2) (get_list enr c1)) cs) cs))
    as [Hyes|Hno].
  - left. apply Exists_exists in Hyes as (c1 & H1 & Hyes).
    apply Exists_exists in Hyes as (c2 & H2 & Hne & Hyes).
    apply Exists_exists in Hyes as (x & Hx1 & Hx2).
    by exists x, c1, c2.
  - right. intros (x & c1 & c2 & Hne & H1 & H2 & Hx1 & Hx2). apply Hno.
    apply Exists_exists. exists c1. split; [done|].
    apply Exists_exists. exists c2. split; [done|]. split; [done|].
    apply Exists_exists. by exists x.
Qed.

(** ** Running allocate_session *)

Lemma allocate_session_run slot_info buffer mode self :
  allocate_session slot_info buffer mode self =
  let enr := course_enrollments self in
  let rs0 := reset <$> rooms self in
  if check_courses enr (Slot.Courses slot_info) ∅ then (tt, set_rooms rs0 self)
  else
    let out := allocate_courses slot_info buffer mode enr
                 (sort_courses enr (Slot.Courses slot_info)) rs0 (allocations self) in
    (tt, mkSystem (schedule self) enr (student_names self) out.1 out.2
           (room_stats self ++ (stat slot_info <$> out.1))).
Proof.
  unfold allocate_session, mbind, M_bind, modify, gets, check_clashes, mret, M_ret.
  simpl. destruct (check_courses _ _ ∅); [done|].
  unfold set_rooms, set_allocations, set_room_stats. simpl.
  by destruct (allocate_courses _ _ _ _ _ _ _).
Qed.

(** ** The stable descending sort *)

Section SortedFacts.
Context {A : Type} (key : A → nat).

Lemma insert_desc_perm x l : insert_desc key x l ≡ₚ x :: l.
Proof.
  induction l as [|y l IH]; simpl; [done|].
  destruct (decide (key x < key y)%nat); [|done].
  rewrite IH. apply Permutation_swap.
Qed.

Lemma sorted_perm l : sorted key l ≡ₚ l.
Proof.
  induction l as [|x l IH]; simpl; [done|].
  by rewrite insert_desc_perm, IH.
Qed.

Lemma insert_desc_sorted x l :
  StronglySorted (desc key) l → StronglySorted (desc key) (insert_desc key x l).
Proof.
  induction l as [|y l IH]; simpl; intros Hs.
  - repeat constructor.
  - apply StronglySorted_inv in Hs as [Hl Hy].
    destruct (decide (key x < key y)%nat) as [Hlt|Hge].
    + constructor; [by apply IH|].
      rewrite insert_desc_perm. constructor; [unfold desc; lia|done].
    + constructor; [by constructor|].
      constructor; [unfold desc; lia|].
      eapply Forall_impl; [exact Hy|]. unfold desc. intros; simpl in *; lia.
Qed.

Lemma sorted_sorted l : StronglySorted (desc key) (sorted key l).
Proof.
  induction l as [|x l IH]; simpl; [constructor|].
  by apply insert_desc_sorted.
Qed.

Lemma insert_desc_filter k x l :
  filter (λ c, key c = k) (insert_desc key x l) =
  filter (λ c, key c = k) (x :: l).
Proof.
  induction l as [|y l IH]; simpl; [done|].
  destruct (decide (key x < key y)%nat) as [Hlt|Hge]; [|done].
  rewrite filter_cons, IH, !filter_cons.
  repeat case_decide; try done; lia.
Qed.

Lemma sorted_stable k l :
  filter (λ c, key c = k) (sorted key l) = filter (λ c, key c = k) l.
Proof.
  induction l as [|x l IH]; simpl; [done|].
  by rewrite insert_desc_filter, !filter_cons, IH.
Qed.
End SortedFacts.

Lemma sort_courses_example enr (a b c : string) :
  enrollment_size enr a = 50%nat → enrollment_size enr b = 10%nat →
  enrollment_size enr c = 30%nat →
  sort_courses enr [a; b; c] = [a; c; b].
Proof.
  intros Ha Hb Hc. unfold sort_courses. simpl.
  rewrite Hb, Hc. simpl. rewrite Ha, Hc, Hb. simpl. done.
Qed.

(** ** Sums and filters *)

Lemma sumZ_app {A} (f : A → Z) (l k : list A) : sumZ f (l ++ k) = sumZ f l + sumZ f k.
Proof. induction l as [|x l IH]; simpl; [done|]. rewrite IH. lia. Qed.

Lemma sumZ_filter {A} (f : A → Z) (P : A → Prop) `{∀ x, Decision (P x)} (l : list A) :
  sumZ f (filter P l) = sumZ (λ x, if decide (P x) then f x else 0) l.
Proof.
  induction l as [|x l IH]; simpl; [done|].
  rewrite filter_cons. destruct (decide (P x)); simpl; rewrite IH; lia.
Qed.

Lemma sumZ_zero {A} (f : A → Z) (l : list A) : (∀ x, x ∈ l → f x = 0) → sumZ f l = 0.
Proof.
  induction l as [|x l IH]; simpl; [done|]. intros Hz.
  rewrite (Hz x), IH; [done| |by left]. intros y Hy. apply Hz. by right.
Qed.

Lemma filter_none {A} (P : A → Prop) `{∀ x, Decision (P x)} (l : list A) :
  (∀ x, x ∈ l → ¬ P x) → filter P l = [].
Proof.
  induction l as [|x l IH]; [done|]. intros Hno.
  rewrite filter_cons, decide_False by (apply Hno; by left).
  apply IH. intros y Hy. apply Hno. by right.
Qed.

Lemma filter_all {A} (P : A → Prop) `{∀ x, Decision (P x)} (l : list A) :
  (∀ x, x ∈ l → P x) → filter P l = l.
Proof.
  induction l as [|x l IH]; [done|]. intros Hall.
  rewrite filter_cons, decide_True by (apply Hall; by left).
  f_equal. apply IH. intros y Hy. apply Hall. by right.
Qed.

Lemma filter_unique {A B} `{EqDecision B} (f : A → B) (l : list A) x :
  NoDup (f <$> l) → x ∈ l → filter (λ y, f y = f x) l = [x].
Proof.
  induction l as [|y l IH]; [by intros _ ?%elem_of_nil|].
  rewrite fmap_cons, NoDup_cons. intros [Hy Hl] Hx.
  rewrite filter_cons. apply elem_of_cons in Hx as [->|Hx].
  - rewrite decide_True by done. f_equal.
    apply filter_none. intros z Hz Heq. apply Hy. rewrite <- Heq.
    by apply list_elem_of_fmap_2.
  - rewrite decide_False; [by apply IH|]. intros Heq. apply Hy.
    rewrite Heq. by apply list_elem_of_fmap_2.
Qed.

(** ** The loops of allocate_session *)

Section Loops.
Context (si : Slot.t) (buf : Z) (mode : string).


(** The two outcomes of one room visit. *)
Lemma seat_cases course students room al :
  let n := take_count buf mode students room in
  (0 < n ≤ Z.of_nat (length students) ∧
   n ≤ eff_cap buf room - Room.filled room ∧ n ≤ subj_limit buf mode room ∧
   seat si buf mode course students room al =
     (Room.mk (Room.Room room) (Room.Capacity room) (Room.filled room + n)
        (<[course := get_list (Room.assignments room) course
                      ++ take (Z.to_nat n) students]> (Room.assignments room)),
      drop (Z.to_nat n) students,
      al ++ [record si course room n (take (Z.to_nat n) students)])) ∨
  (n ≤ 0 ∧ seat si buf mode course students room al = (room, students, al)).
Proof.
  intros n. unfold seat. fold n.
  destruct (decide (0 < n)) as [Hpos|Hneg]; [left|right; split; [lia|done]].
  split; [|split; [|split]]; [| | |done];
    subst n; unfold take_count, space_in_room in *; lia.
Qed.

(** The loops only append to the log they are given. *)
Lemma seat_log course students room al :
  seat si buf mode course students room al =
  let out := seat si buf mode course students room [] in (out.1.1, out.1.2, al ++ out.2).
Proof.
  unfold seat. destruct (decide _); simpl; [done|].
  by rewrite app_nil_r.
Qed.

Lemma allocate_rooms_log course students rooms al :
  allocate_rooms si buf mode course students rooms al =
  let out := allocate_rooms si buf mode course students rooms [] in
  (out.1.1, al ++ out.1.2, out.2).
Proof.
  revert students al. induction rooms as [|r rs IH]; intros st al; simpl.
  - by rewrite app_nil_r.
  - destruct st as [|s st]; [by rewrite app_nil_r|].
    rewrite (seat_log _ _ _ al). 
    destruct (seat si buf mode course (s :: st) r []) as [[r' st'] new]. simpl.
    rewrite (IH st' (al ++ new)), (IH st' new).
    destruct (allocate_rooms si buf mode course st' rs []) as [[rs' new'] st'']. simpl.
    by rewrite app_assoc.
Qed.

Lemma allocate_courses_log enr courses rooms al :
  allocate_courses si buf mode enr courses rooms al =
  let out := allocate_courses si buf mode enr courses rooms [] in (out.1, al ++ out.2).
Proof.
  revert rooms al. induction courses as [|c cs IH]; intros rs al; simpl.
  - by rewrite app_nil_r.
  - destruct (get_list enr c) as [|s st]; [apply IH|].
    rewrite (allocate_rooms_log _ _ _ al).
    destruct (allocate_rooms si buf mode c (s :: st) rs []) as [[rs' new] st']. simpl.
    rewrite (IH rs' (al ++ new)), (IH rs' new).
    destruct (allocate_courses si buf mode enr cs rs' []) as [rs'' new']. simpl.
    by rewrite app_assoc.
Qed.

(** A relation between a room before and after that every room visit
    respects holds between the room lists before and after the loops. *)
Lemma allocate_rooms_rel (R : Room.t → Room.t → Prop) course :
  Reflexive R →
  (∀ st r, R r (seat si buf mode course st r []).1.1) →
  ∀ st rs al, Forall2 R rs (allocate_rooms si buf mode course st rs al).1.1.
Proof.
  intros Hrefl Hseat st rs. revert st.
  induction rs as [|r rs IH]; intros st al; simpl; [constructor|].
  destruct st as [|s st]; simpl.
  { reflexivity. }
  rewrite seat_log. specialize (Hseat (s :: st) r).
  destruct (seat si buf mode course (s :: st) r []) as [[r' st'] new]. simpl in *.
  specialize (IH st' (al ++ new)).
  destruct (allocate_rooms si buf mode course st' rs (al ++ new)) as [[rs' al'] st''].
  by constructor.
Qed.

Lemma allocate_courses_rel (R : Room.t → Room.t → Prop) enr cs :
  Reflexive R → Transitive R →
  (∀ c st r, R r (seat si buf mode c st r []).1.1) →
  ∀ rs al, Forall2 R rs (allocate_courses si buf mode enr cs rs al).1.
Proof.
  intros Hrefl Htrans Hseat.
  induction cs as [|c cs IH]; intros rs al; simpl.
  { reflexivity. }
  destruct (get_list enr c) as [|s st]; [apply IH|].
  pose proof (allocate_rooms_rel R c Hrefl (Hseat c) (s :: st) rs al) as Hrs.
  destruct (allocate_rooms si buf mode c (s :: st) rs al) as [[rs' al'] st'].
  simpl in Hrs. specialize (IH rs' al').
  by etrans.
Qed.

(** A quantity of the rooms that every room visit raises by the weight of
    the records it appends is raised, over the loops, by the weight of all
    appended records. *)
Lemma allocate_rooms_sum (mu : Room.t → Z) (nu : Alloc.t → Z) course :
  (∀ st r, let out := seat si buf mode course st r [] in
           mu out.1.1 = mu r + sumZ nu out.2) →
  ∀ st rs, let out := allocate_rooms si buf mode course st rs [] in
           sumZ mu out.1.1 = sumZ mu rs + sumZ nu out.1.2.
Proof.
  intros Hseat st rs. revert st.
  induction rs as [|r rs IH]; intros st; simpl; [done|].
  destruct st as [|s st]; simpl; [lia|].
  specialize (Hseat (s :: st) r).
  destruct (seat si buf mode course (s :: st) r []) as [[r' st'] new].
  rewrite allocate_rooms_log. specialize (IH st').
  destruct (allocate_rooms si buf mode course st' rs []) as [[rs' new'] st''].
  simpl in *. rewrite sumZ_app. lia.
Qed.

Lemma allocate_courses_sum (mu : Room.t → Z) (nu : Alloc.t → Z) enr cs :
  (∀ c st r, let out := seat si buf mode c st r [] in
             mu out.1.1 = mu r + sumZ nu out.2) →
  ∀ rs, let out := allocate_courses si buf mode enr cs rs [] in
        sumZ mu out.1 = sumZ mu rs + sumZ nu out.2.
Proof.
  intros Hseat. induction cs as [|c cs IH]; intros rs; simpl; [lia|].
  destruct (get_list enr c) as [|s st]; [apply IH|].
  pose proof (allocate_rooms_sum mu nu c (Hseat c) (s :: st) rs) as Hrs.
  destruct (allocate_rooms si buf mode c (s :: st) rs []) as [[rs' new] st'].
  rewrite allocate_courses_log. specialize (IH rs').
  destruct (allocate_courses si buf mode enr cs rs' []) as [rs'' new'].
  simpl in *. rewrite sumZ_app. lia.
Qed.

(** *** One room visit *)

Lemma seat_room_step course st r :
  room_step buf r (seat si buf mode course st r []).1.1.
Proof.
  destruct (seat_cases course st r []) as [(Hn & Hspace & _ & ->)|[_ ->]];
    simpl; unfold room_step, eff_cap in *; simpl; [|done].
  split; [done|]. split; [done|]. lia.
Qed.

Lemma seat_fill_of name course st r :
  let out := seat si buf mode course st r [] in
  fill_of name out.1.1 = fill_of name r + sumZ (count_of name) out.2.
Proof.
  destruct (seat_cases course st r []) as [(_ & _ & _ & ->)|[_ ->]];
    simpl; unfold fill_of, count_of; simpl; [|lia].
  destruct (decide (Room.Room r = name)); lia.
Qed.

Lemma seat_seated_of name c course st r :
  let out := seat si buf mode course st r [] in
  seated_of name c out.1.1 =
  seated_of name c r + sumZ (course_count_of name c) out.2.
Proof.
  destruct (seat_cases course st r []) as [(Hn & _ & _ & ->)|[_ ->]];
    simpl; unfold seated_of, course_count_of; simpl; [|lia].
  destruct (decide (Room.Room r = name)) as [Hname|Hname].
  - destruct (decide (course = c)) as [->|Hc].
    + rewrite decide_True by done. unfold get_list at 1.
      rewrite lookup_insert_eq. simpl. rewrite length_app, length_take. lia.
    + rewrite decide_False by naive_solver. unfold get_list.
      rewrite lookup_insert_ne by done. lia.
  - rewrite decide_False by naive_solver. lia.
Qed.

(** The records of one room visit carry the course, and their candidates
    are the front of the working list. *)
Lemma seat_students course st r :
  let out := seat si buf mode course st r [] in
  st = (out.2 ≫= Alloc.Students) ++ out.1.2 ∧
  Forall (λ a, Alloc.Course a = course) out.2.
Proof.
  destruct (seat_cases course st r []) as [(Hn & _ & _ & ->)|[_ ->]]; simpl.
  - rewrite app_nil_r, take_drop. split; [done|]. by repeat constructor.
  - done.
Qed.

(** *** The loop over the rooms *)

Lemma allocate_rooms_students course st rs :
  let out := allocate_rooms si buf mode course st rs [] in
  st = (out.1.2 ≫= Alloc.Students) ++ out.2 ∧
  Forall (λ a, Alloc.Course a = course) out.1.2.
Proof.
  revert st. induction rs as [|r rs IH]; intros st; simpl; [done|].
  destruct st as [|s st]; simpl; [done|].
  destruct (seat_students course (s :: st) r) as [Hst Hc].
  destruct (seat si buf mode course (s :: st) r []) as [[r' st'] new].
  rewrite allocate_rooms_log. destruct (IH st') as [Hst' Hc'].
  destruct (allocate_rooms si buf mode course st' rs []) as [[rs' new'] st''].
  simpl in *. split; [|by apply Forall_app].
  by rewrite Hst, Hst', bind_app, app_assoc.
Qed.

Lemma allocate_rooms_Forall (P Q : Room.t → Prop) course :
  (∀ r, P r → Q r) →
  (∀ st r, P r → Q (seat si buf mode course st r []).1.1) →
  ∀ st rs al, Forall P rs →
    Forall Q (allocate_rooms si buf mode course st rs al).1.1.
Proof.
  intros HPQ Hseat st rs al HP.
  assert (Reflexive (λ r r', P r → Q r')) as Hrefl by exact HPQ.
  pose proof (allocate_rooms_rel _ course Hrefl Hseat st rs al) as Hrel.
  revert HP. induction Hrel as [|r r' rs rs' Hr _ IH]; [done|].
  intros [HPr HPrs]%Forall_cons. constructor; auto.
Qed.

(** *** The loop over the courses *)

Lemma allocate_courses_courses enr cs rs :
  Forall (λ a, Alloc.Course a ∈ cs)
         (allocate_courses si buf mode enr cs rs []).2.
Proof.
  revert rs. induction cs as [|c cs IH]; intros rs; simpl; [done|].
  destruct (get_list enr c) as [|s st].
  { eapply Forall_impl; [apply IH|]. intros a Ha. by right. }
  destruct (allocate_rooms_students c (s :: st) rs) as [_ Hc].
  destruct (allocate_rooms si buf mode c (s :: st) rs []) as [[rs' new] st'].
  rewrite allocate_courses_log. specialize (IH rs').
  destruct (allocate_courses si buf mode enr cs rs' []) as [rs'' new'].
  simpl in *. apply Forall_app. split.
  - eapply Forall_impl; [exact Hc|]. intros a ->. by left.
  - eapply Forall_impl; [exact IH|]. intros a Ha. by right.
Qed.

(** The records come course by course, in the order of the course list. *)
Lemma allocate_courses_grouped enr cs rs :
  ∃ ks, length ks = length cs ∧
    Alloc.Course <$> (allocate_courses si buf mode enr cs rs []).2 =
    mjoin (zip_with replicate ks cs).
Proof.
  revert rs. induction cs as [|c cs IH]; intros rs; simpl.
  { by exists []. }
  destruct (get_list enr c) as [|s st].
  { destruct (IH rs) as (ks & Hlen & Heq). exists (0%nat :: ks).
    split; [simpl; lia|]. by rewrite Heq. }
  destruct (allocate_rooms_students c (s :: st) rs) as [_ Hc].
  destruct (allocate_rooms si buf mode c (s :: st) rs []) as [[rs' new] st'].
  rewrite allocate_courses_log. destruct (IH rs') as (ks & Hlen & Heq).
  destruct (allocate_courses si buf mode enr cs rs' []) as [rs'' new'].
  simpl in *. exists (length new :: ks). split; [simpl; lia|].
  rewrite fmap_app, Heq. simpl. f_equal.
  clear -Hc. induction Hc as [|a new Ha _ IH]; csimpl; [done|]. by rewrite Ha, IH.
Qed.

Lemma seated_in_app c l k : seated_in c (l ++ k) = seated_in c l ++ seated_in c k.
Proof. unfold seated_in. by rewrite filter_app, bind_app. Qed.

Lemma seated_in_same c l :
  Forall (λ a, Alloc.Course a = c) l → seated_in c l = l ≫= Alloc.Students.
Proof.
  intros Hl. unfold seated_in. rewrite filter_all; [done|].
  by apply Forall_forall.
Qed.

Lemma seated_in_other c c' l :
  c ≠ c' → Forall (λ a, Alloc.Course a = c') l → seated_in c l = [].
Proof.
  intros Hne Hl. unfold seated_in. rewrite filter_none; [done|].
  intros a Ha. rewrite Forall_forall in Hl. rewrite (Hl a Ha). congruence.
Qed.

Lemma seated_in_absent c (cs : list string) l :
  c ∉ cs → Forall (λ a, Alloc.Course a ∈ cs) l → seated_in c l = [].
Proof.
  intros Hc Hl. unfold seated_in. rewrite filter_none; [done|].
  intros a Ha. rewrite Forall_forall in Hl. intros <-. by apply Hc, Hl.
Qed.

(** Without a clash, the seated candidates of a course are the front of
    its roster. *)
Lemma allocate_courses_prefix enr cs rs c :
  NoDup (rosters enr cs) →
  seated_in c (allocate_courses si buf mode enr cs rs []).2
    `prefix_of` get_list enr c.
Proof.
  revert rs. induction cs as [|c0 cs IH]; intros rs Hnd; simpl.
  { apply prefix_nil. }
  pose proof (NoDup_rosters_head enr c0 cs Hnd) as Hhead.
  rewrite rosters_cons in Hnd. apply NoDup_app in Hnd as (_ & _ & Hcs).
  destruct (get_list enr c0) as [|s st] eqn:Hroster; [by apply IH|].
  destruct (allocate_rooms_students c0 (s :: st) rs) as [Hst Hc].
  destruct (allocate_rooms si buf mode c0 (s :: st) rs []) as [[rs' new] st'].
  rewrite allocate_courses_log. specialize (IH rs' Hcs).
  pose proof (allocate_courses_courses enr cs rs') as Hin.
  destruct (allocate_courses si buf mode enr cs rs' []) as [rs'' new'].
  simpl in *. rewrite seated_in_app.
  destruct (decide (c = c0)) as [->|Hne].
  - rewrite (seated_in_same c0 new Hc), (seated_in_absent c0 cs new'), app_nil_r;
      [|by apply Hhead|done].
    rewrite Hroster, Hst. by apply prefix_app_r.
  - by rewrite (seated_in_other c c0 new Hne Hc).
Qed.

(** *** The sparse limit *)

Lemma get_list_insert_eq (m : gmap string (list string)) k v :
  get_list (<[k:=v]> m) k = v.
Proof. unfold get_list. by rewrite lookup_insert_eq. Qed.

Lemma get_list_insert_ne (m : gmap string (list string)) k k' v :
  k ≠ k' → get_list (<[k:=v]> m) k' = get_list m k'.
Proof. intros Hne. unfold get_list. by rewrite lookup_insert_ne. Qed.

Lemma sparse_ok_tail enr c0 cs r :
  sparse_ok enr buf (c0 :: cs) r → sparse_ok enr buf cs r.
Proof.
  intros Hok c. destruct (Hok c) as [Hfree Hlen]. split; [|done].
  intros Hc. apply Hfree. by right.
Qed.

Lemma seat_sparse enr c0 cs st r :
  mode = "sparse" → c0 ∉ cs → get_list enr c0 ≠ [] →
  sparse_ok enr buf (c0 :: cs) r →
  sparse_ok enr buf cs (seat si buf mode c0 st r []).1.1.
Proof.
  intros Hmode Hc0 Hroster Hok.
  destruct (seat_cases c0 st r []) as [(Hn & _ & Hlim & ->)|[_ ->]]; simpl;
    [|exact (sparse_ok_tail enr c0 cs r Hok)].
  unfold subj_limit in Hlim.
  destruct (String.eqb_spec mode "sparse") as [_|Hno]; [|done].
  intros c. unfold eff_cap in *. simpl.
  destruct (decide (c = c0)) as [->|Hne].
  - split; [done|]. rewrite get_list_insert_eq.
    destruct (Hok c0) as [Hfree _].
    assert (c0 ∈ c0 :: cs) as Hin by (by left).
    rewrite (Hfree Hin Hroster). simpl. rewrite length_take. lia.
  - rewrite get_list_insert_ne by done.
    destruct (Hok c) as [Hfree Hlen]. split; [|done].
    intros Hc. apply Hfree. by right.
Qed.

Lemma allocate_courses_sparse enr cs :
  mode = "sparse" → NoDup (rosters enr cs) →
  ∀ rs al, Forall (sparse_ok enr buf cs) rs →
    Forall (sparse_ok enr buf []) (allocate_courses si buf mode enr cs rs al).1.
Proof.
  intros Hmode. induction cs as [|c0 cs IH]; intros Hnd rs al Hok; simpl; [done|].
  pose proof (NoDup_rosters_head enr c0 cs Hnd) as Hhead.
  rewrite rosters_cons in Hnd. apply NoDup_app in Hnd as (_ & _ & Hcs).
  destruct (get_list enr c0) as [|s st] eqn:Hroster.
  { apply IH; [done|]. eapply Forall_impl; [exact Hok|]. apply sparse_ok_tail. }
  assert (Forall (sparse_ok enr buf cs)
            (allocate_rooms si buf mode c0 (s :: st) rs al).1.1) as Hrs.
  { apply (allocate_rooms_Forall (sparse_ok enr buf (c0 :: cs))); [| |done].
    - apply sparse_ok_tail.
    - intros st' r. apply seat_sparse; [done|by apply Hhead|by rewrite Hroster]. }
  destruct (allocate_rooms si buf mode c0 (s :: st) rs al) as [[rs' al'] st'].
  by apply IH.
Qed.

Lemma sparse_ok_reset enr cs r : sparse_ok enr buf cs (reset r).
Proof.
  intros c. unfold get_list, eff_cap. simpl. rewrite lookup_empty. simpl.
  split; [done|]. apply Z.div_pos; lia.
Qed.

(** *** Names, capacities and fills of the rooms *)

Lemma room_step_names rs rs' :
  Forall2 (room_step buf) rs rs' →
  Room.Room <$> rs' = Room.Room <$> rs ∧
  Room.Capacity <$> rs' = Room.Capacity <$> rs.
Proof.
  induction 1 as [|r r' rs rs' (Hname & Hcap & _) _ [IH1 IH2]]; [done|].
  csimpl. by rewrite Hname, Hcap, IH1, IH2.
Qed.

Lemma room_step_filled rs rs' :
  Forall2 (room_step buf) rs rs' →
  Forall (λ r, Room.filled r ≤ eff_cap buf r) rs →
  Forall (λ r, Room.filled r ≤ eff_cap buf r) rs'.
Proof.
  induction 1 as [|r r' rs rs' (_ & _ & Hfill) _ IH]; [done|].
  intros [Hr Hrs]%Forall_cons. constructor; auto.
Qed.

Global Instance room_step_refl : Reflexive (room_step buf).
Proof. by intros r. Qed.

Global Instance room_step_trans : Transitive (room_step buf).
Proof.
  intros r1 r2 r3 (Hn1 & Hc1 & Hf1) (Hn2 & Hc2 & Hf2).
  split; [congruence|]. split; [congruence|]. auto.
Qed.

Lemma allocate_courses_room_step enr cs rs al :
  Forall2 (room_step buf) rs (allocate_courses si buf mode enr cs rs al).1.
Proof.
  apply allocate_courses_rel; [apply _..|]. intros c st r. apply seat_room_step.
Qed.

(** The records of room [name] account for the fill of the rooms of that
    name, overall and course by course. *)
Lemma allocate_courses_fill name enr cs rs :
  let out := allocate_courses si buf mode enr cs rs [] in
  sumZ (fill_of name) out.1 =
  sumZ (fill_of name) rs + sumZ (count_of name) out.2.
Proof. apply allocate_courses_sum. intros c st r. apply seat_fill_of. Qed.

Lemma allocate_courses_seated name c enr cs rs :
  let out := allocate_courses si buf mode enr cs rs [] in
  sumZ (seated_of name c) out.1 =
  sumZ (seated_of name c) rs + sumZ (course_count_of name c) out.2.
Proof. apply allocate_courses_sum. intros c' st r. apply seat_seated_of. Qed.

(** *** Modes other than sparse *)

Lemma seat_mode course st r al :
  mode ≠ "sparse" →
  seat si buf mode course st r al = seat si buf "dense" course st r al.
Proof.
  intros Hmode. unfold seat, take_count, subj_limit.
  by destruct (String.eqb_spec mode "sparse").
Qed.

Lemma allocate_rooms_mode course st rs al :
  mode ≠ "sparse" →
  allocate_rooms si buf mode course st rs al =
  allocate_rooms si buf "dense" course st rs al.
Proof.
  intros Hmode. revert st al.
  induction rs as [|r rs IH]; intros st al; simpl; [done|].
  destruct st as [|s st]; [done|]. rewrite seat_mode by done.
  destruct (seat si buf "dense" course (s :: st) r al) as [[r' st'] al'].
  by rewrite IH.
Qed.

Lemma allocate_courses_mode enr cs rs al :
  mode ≠ "sparse" →
  allocate_courses si buf mode enr cs rs al =
  allocate_courses si buf "dense" enr cs rs al.
Proof.
  intros Hmode. revert rs al.
  induction cs as [|c cs IH]; intros rs al; simpl; [done|].
  destruct (get_list enr c) as [|s st]; [done|].
  rewrite allocate_rooms_mode by done.
  destruct (allocate_rooms si buf "dense" c (s :: st) rs al) as [[rs' al'] st'].
  by rewrite IH.
Qed.

End Loops.

(** ** The two paths of allocate_session *)

Lemma appended_app {A} (l k : list A) : appended l (l ++ k) = k.
Proof. apply drop_app_length. Qed.

Lemma appended_same {A} (l : list A) : appended l l = [].
Proof. unfold appended. by rewrite drop_all. Qed.

Lemma after_clash si buf mode self :
  (check_clashes (Slot.Courses si) self).1 = true →
  after si buf mode self = set_rooms (reset <$> rooms self) self.
Proof.
  rewrite check_clashes_run. simpl. intros Hclash.
  unfold after. rewrite allocate_session_run. simpl. by rewrite Hclash.
Qed.

Lemma after_clean si buf mode self :
  (check_clashes (Slot.Courses si) self).1 = false →
  let enr := course_enrollments self in
  let out := allocate_courses si buf mode enr
               (sort_courses enr (Slot.Courses si)) (reset <$> rooms self) [] in
  after si buf mode self =
  mkSystem (schedule self) enr (student_names self) out.1
    (allocations self ++ out.2) (room_stats self ++ (stat si <$> out.1)).
Proof.
  rewrite check_clashes_run. simpl. intros Hclean.
  unfold after. rewrite allocate_session_run. simpl. rewrite Hclean.
  by rewrite allocate_courses_log.
Qed.

Lemma new_records_clash si buf mode self :
  (check_clashes (Slot.Courses si) self).1 = true →
  new_records si buf mode self = [].
Proof.
  intros Hclash. unfold new_records. rewrite after_clash by done.
  apply appended_same.
Qed.

Lemma new_records_clean si buf mode self :
  (check_clashes (Slot.Courses si) self).1 = false →
  let enr := course_enrollments self in
  new_records si buf mode self =
  (allocate_courses si buf mode enr (sort_courses enr (Slot.Courses si))
     (reset <$> rooms self) []).2.
Proof.
  intros Hclean. unfold new_records. rewrite after_clean by done.
  apply appended_app.
Qed.

Lemma rooms_clean si buf mode self :
  (check_clashes (Slot.Courses si) self).1 = false →
  let enr := course_enrollments self in
  rooms (after si buf mode self) =
  (allocate_courses si buf mode enr (sort_courses enr (Slot.Courses si))
     (reset <$> rooms self) []).1.
Proof. intros Hclean. by rewrite after_clean. Qed.

(** Whatever the path, the rooms keep their names and capacities and stay
    within their effective capacity. *)
Lemma after_room_step si buf mode self :
  Forall2 (room_step buf) (reset <$> rooms self) (rooms (after si buf mode self)).
Proof.
  destruct (check_clashes (Slot.Courses si) self).1 eqn:Hc.
  - rewrite after_clash by done. simpl. reflexivity.
  - rewrite rooms_clean by done. apply allocate_courses_room_step.
Qed.

Lemma sort_courses_rosters enr cs :
  NoDup (rosters enr cs) → NoDup (rosters enr (sort_courses enr cs)).
Proof.
  intros Hnd. eapply NoDup_Permutation_proper; [|exact Hnd].
  unfold rosters, sort_courses. by rewrite sorted_perm.
Qed.

(** ** The clash detector: contract *)

(** C6, as stated, fails: a roster that lists one candidate twice is
    flagged although no candidate is in two courses. *)
Lemma check_clashes_twice_listed :
  (check_clashes ["A"] twice_listed).1 = true ∧
  ¬ shares_candidate (course_enrollments twice_listed) ["A"].
Proof.
  split; [by vm_compute|].
  intros (x & c1 & c2 & Hne & H1 & H2 & _).
  apply list_elem_of_singleton in H1, H2. congruence.
Qed.

(** C6 (amended): [check_clashes] returns true exactly when some candidate
    occurs twice in the rosters of the course list taken one after the
    other.  That is the case whenever two different courses of the list
    share a candidate; and when no course is listed twice and no roster
    lists a candidate twice, it is the case only then.  The call leaves the
    whole state as it was. *)
Theorem check_clashes_contract courses self :
  let enr := course_enrollments self in
  (check_clashes courses self).2 = self ∧
  ((check_clashes courses self).1 = true ↔ ¬ NoDup (rosters enr courses)) ∧
  (shares_candidate enr courses → (check_clashes courses self).1 = true) ∧
  (NoDup courses → (∀ c, c ∈ courses → NoDup (get_list enr c)) →
   (check_clashes courses self).1 = true → shares_candidate enr courses).
Proof.
  intros enr. split; [done|]. split; [apply check_clashes_true|]. split.
  - intros Hshare. apply check_clashes_true. by apply shares_candidate_clash.
  - intros Hcs Hrosters Hclash%check_clashes_true.
    destruct (shares_candidate_dec enr courses) as [Hyes|Hno]; [done|].
    exfalso. apply Hclash. by apply NoDup_rosters_intro.
Qed.

Lemma check_clashes_contract_witness :
  shares_candidate (course_enrollments clashing) ["A"; "B"].
Proof.
  apply (check_clashes_contract ["A"; "B"] clashing).
  - apply (bool_decide_unpack _). vm_compute. exact I.
  - intros c Hc. apply (bool_decide_unpack _).
    apply elem_of_cons in Hc as [->|Hc]; [vm_compute; exact I|].
    apply list_elem_of_singleton in Hc as ->. vm_compute. exact I.
  - vm_compute. reflexivity.
Defined.

(** ** Slots with a clash *)

(** C3: when the clash detector flags the course list of the slot, the
    call resets the rooms (fill 0, no assignments) and returns: the
    allocation log and the room-statistics log are as before. *)
Theorem clash_skips_allocation si buf mode self :
  (check_clashes (Slot.Courses si) self).1 = true →
  Forall (λ r, Room.filled r = 0 ∧ Room.assignments r = ∅)
         (rooms (after si buf mode self)) ∧
  allocations (after si buf mode self) = allocations self ∧
  room_stats (after si buf mode self) = room_stats self.
Proof.
  intros Hclash. rewrite after_clash by done. simpl.
  split; [|done]. apply Forall_fmap, Forall_true. done.
Qed.

Lemma clash_skips_allocation_witness :
  Forall (λ r, Room.filled r = 0 ∧ Room.assignments r = ∅)
         (rooms (after (sample_slot ["A"; "B"]) 5 "dense" clashing)) ∧
  allocations (after (sample_slot ["A"; "B"]) 5 "dense" clashing) = [] ∧
  room_stats (after (sample_slot ["A"; "B"]) 5 "dense" clashing) = [].
Proof.
  apply (clash_skips_allocation (sample_slot ["A"; "B"]) 5 "dense" clashing).
  vm_compute. reflexivity.
Defined.

(** C2, as stated, fails: on a slot with a clash no Room Statistic is
    recorded at all, so there is not one per room. *)
Lemma clash_records_no_stats :
  shares_candidate (course_enrollments clashing) ["A"; "B"] ∧
  ¬ (new_records (sample_slot ["A"; "B"]) 5 "dense" clashing = [] ∧
     Forall (λ s, Stat.Allocated s = 0)
            (new_stats (sample_slot ["A"; "B"]) 5 "dense" clashing) ∧
     Stat.Room <$> new_stats (sample_slot ["A"; "B"]) 5 "dense" clashing =
     Room.Room <$> rooms clashing).
Proof.
  split.
  - exists "r2", "A", "B". repeat split; try done; vm_compute;
      repeat constructor.
  - intros (_ & _ & Hstats). vm_compute in Hstats. discriminate.
Qed.

(** C2 (amended): for a slot whose course list has two courses sharing a
    candidate the call appends no Allocation Record and no Room Statistic,
    so every Room Statistic of the slot shows allocated = 0 for want of
    any.  One Room Statistic per room, used or not, is recorded for the
    slots that pass the clash check. *)
Theorem clash_skip_report si buf mode self :
  (shares_candidate (course_enrollments self) (Slot.Courses si) →
   new_records si buf mode self = [] ∧
   new_stats si buf mode self = [] ∧
   Forall (λ s, Stat.Allocated s = 0) (new_stats si buf mode self)) ∧
  ((check_clashes (Slot.Courses si) self).1 = false →
   Stat.Room <$> new_stats si buf mode self = Room.Room <$> rooms self).
Proof.
  split.
  - intros Hclash%shares_candidate_clash%check_clashes_true.
    rewrite new_records_clash by done. unfold new_stats.
    rewrite after_clash by done. simpl. by rewrite appended_same.
  - intros Hclean. unfold new_stats. rewrite after_clean by done. simpl.
    rewrite appended_app, <- list_fmap_compose.
    pose proof (after_room_step si buf mode self) as Hstep.
    rewrite rooms_clean in Hstep by done.
    apply room_step_names in Hstep as [Hnames _].
    rewrite <- list_fmap_compose in Hnames. exact Hnames.
Qed.

Lemma clash_skip_report_witness :
  (new_records (sample_slot ["A"; "B"]) 5 "dense" clashing = [] ∧
   new_stats (sample_slot ["A"; "B"]) 5 "dense" clashing = [] ∧
   Forall (λ s, Stat.Allocated s = 0)
          (new_stats (sample_slot ["A"; "B"]) 5 "dense" clashing)) ∧
  Stat.Room <$> new_stats (sample_slot ["A"; "B"]) 5 "dense" clean =
  ["R1"; "R2"].
Proof.
  split.
  - apply (clash_skip_report (sample_slot ["A"; "B"]) 5 "dense" clashing).
    exists "r2", "A", "B". repeat split; try done; vm_compute;
      repeat constructor.
  - apply (clash_skip_report (sample_slot ["A"; "B"]) 5 "dense" clean).
    vm_compute. reflexivity.
Defined.

(** ** Slots without courses *)

(** C7, as stated, fails: with an empty course list the room-statistics
    pass still runs and records one entry per room. *)
Lemma empty_slot_records_stats :
  Slot.Courses (sample_slot []) = [] ∧
  room_stats (after (sample_slot []) 5 "dense" clean) ≠ room_stats clean.
Proof. split; [done|]. vm_compute. discriminate. Qed.

(** C7 (amended): on a slot whose course list is empty the call appends
    nothing to the allocation log; it resets every room and appends one
    Room Statistic per room, with allocated = 0 and free = capacity.  The
    schedule, the enrollment index and the names are as before. *)
Theorem empty_slot si buf mode self :
  Slot.Courses si = [] →
  after si buf mode self =
  mkSystem (schedule self) (course_enrollments self) (student_names self)
    (reset <$> rooms self) (allocations self)
    (room_stats self ++
     ((λ r, Stat.mk (Slot.Date si) (Slot.Session si) (Room.Room r) 0
                    (Room.Capacity r)) <$> rooms self)).
Proof.
  intros Hempty. rewrite after_clean by (by rewrite Hempty).
  rewrite Hempty. simpl. rewrite app_nil_r. do 2 f_equal.
  rewrite <- list_fmap_compose. apply list_fmap_ext. intros i r _.
  unfold stat. simpl. f_equal. lia.
Qed.

Lemma empty_slot_witness :
  after (sample_slot []) 5 "dense" clean =
  mkSystem [] (course_enrollments clean) ∅ (reset <$> rooms clean) []
    [Stat.mk "01-12-2025" "Morning" "R1" 0 4;
     Stat.mk "01-12-2025" "Morning" "R2" 0 3].
Proof.
  apply (empty_slot (sample_slot []) 5 "dense" clean). reflexivity.
Defined.

(** ** Modes *)

(** C9: under any mode other than "sparse" the call does what it does
    under "dense": same result, same state afterwards. *)
Theorem unknown_mode_is_dense si buf mode self :
  mode ≠ "sparse" →
  allocate_session si buf mode self = allocate_session si buf "dense" self.
Proof.
  intros Hmode. rewrite !allocate_session_run. simpl.
  by rewrite allocate_courses_mode.
Qed.

Lemma unknown_mode_is_dense_witness :
  allocate_session (sample_slot ["A"; "B"]) 0 "Sparse" clean =
  allocate_session (sample_slot ["A"; "B"]) 0 "dense" clean.
Proof.
  apply (unknown_mode_is_dense (sample_slot ["A"; "B"]) 0 "Sparse" clean).
  intros Heq. discriminate Heq.
Defined.

(** ** Fills, capacities and records *)

Lemma after_names si buf mode self :
  Room.Room <$> rooms (after si buf mode self) = Room.Room <$> rooms self ∧
  Room.Capacity <$> rooms (after si buf mode self) =
  Room.Capacity <$> rooms self.
Proof.
  destruct (room_step_names buf _ _ (after_room_step si buf mode self))
    as [Hnames Hcaps].
  rewrite <- !list_fmap_compose in Hnames, Hcaps. done.
Qed.

Lemma after_filled si buf mode self :
  Forall (λ r, Room.filled r ≤ eff_cap buf r) (rooms (after si buf mode self)).
Proof.
  eapply room_step_filled; [apply after_room_step|].
  apply Forall_fmap, Forall_true. intros r. unfold eff_cap. simpl. lia.
Qed.

Lemma sumZ_reset (f : Room.t → Z) rs :
  (∀ r, f (reset r) = 0) → sumZ f (reset <$> rs) = 0.
Proof.
  intros Hf. apply sumZ_zero. intros r (r0 & -> & _)%list_elem_of_fmap.
  apply Hf.
Qed.

Lemma new_records_fill name si buf mode self :
  sumZ (count_of name) (new_records si buf mode self) =
  sumZ (fill_of name) (rooms (after si buf mode self)).
Proof.
  assert (sumZ (fill_of name) (reset <$> rooms self) = 0) as Hzero.
  { apply sumZ_reset. intros r. unfold fill_of. simpl. by case_decide. }
  destruct (check_clashes (Slot.Courses si) self).1 eqn:Hc.
  - rewrite new_records_clash, after_clash by done.
    unfold set_rooms. cbn [rooms]. by rewrite Hzero.
  - rewrite new_records_clean, rooms_clean by done.
    rewrite allocate_courses_fill, Hzero. lia.
Qed.

Lemma new_records_seated name c si buf mode self :
  sumZ (course_count_of name c) (new_records si buf mode self) =
  sumZ (seated_of name c) (rooms (after si buf mode self)).
Proof.
  assert (sumZ (seated_of name c) (reset <$> rooms self) = 0) as Hzero.
  { apply sumZ_reset. intros r. unfold seated_of. simpl. by case_decide. }
  destruct (check_clashes (Slot.Courses si) self).1 eqn:Hc.
  - rewrite new_records_clash, after_clash by done.
    unfold set_rooms. cbn [rooms]. by rewrite Hzero.
  - rewrite new_records_clean, rooms_clean by done.
    rewrite allocate_courses_seated, Hzero. lia.
Qed.

(** With distinct room names, the rooms of one name are one room. *)
Lemma unique_room_sum (f : Room.t → Z) rs r :
  NoDup (Room.Room <$> rs) → r ∈ rs →
  sumZ (λ x, if decide (Room.Room x = Room.Room r) then f x else 0) rs = f r.
Proof.
  intros Hnd Hr.
  rewrite <- (sumZ_filter f (λ x, Room.Room x = Room.Room r)).
  rewrite (filter_unique Room.Room rs r Hnd Hr). simpl. lia.
Qed.





(** C5: after the call the fill of a room whose capacity is at least the
    buffer is at most its capacity less the buffer. *)
Theorem buffer_respected si buf mode self r :
  r ∈ rooms (after si buf mode self) → buf ≤ Room.Capacity r →
  Room.filled r ≤ Room.Capacity r - buf.
Proof.
  intros Hr Hcap.
  pose proof (after_filled si buf mode self) as Hfill.
  rewrite Forall_forall in Hfill. specialize (Hfill r Hr).
  unfold eff_cap in Hfill. lia.
Qed.


Lemma buffer_respected_witness :
  Room.filled (Room.mk "R1" 4 3 (list_to_map [("A", ["a1"; "a2"; "a3"])])) ≤ 4 - 1.
Proof.
  apply (buffer_respected (sample_slot ["A"; "B"]) 1 "dense" clean).
  - vm_compute. left.
  - simpl. lia.
Defined.

(** ** The sparse limit *)

Lemma after_sparse_ok si buf self :
  Forall (sparse_ok (course_enrollments self) buf [])
         (rooms (after si buf "sparse" self)).
Proof.
  destruct (check_clashes (Slot.Courses si) self).1 eqn:Hc.
  - rewrite after_clash by done. unfold set_rooms. cbn [rooms].
    apply Forall_fmap, Forall_true. intros r. apply sparse_ok_reset.
  - rewrite rooms_clean by done. apply allocate_courses_sparse; [done| |].
    + by apply sort_courses_rosters, check_clashes_false.
    + apply Forall_fmap, Forall_true. intros r. apply sparse_ok_reset.
Qed.

(** C4, as stated, fails: in a room smaller than the buffer nobody is
    seated, and 0 exceeds the negative bound ⌊(Capacity − b)/2⌋. *)
Lemma sparse_half_limit_small_room :
  0 ≤ 5 ∧
  Room.mk "R1" 3 0 ∅ ∈ rooms (after (sample_slot ["A"]) 5 "sparse" small_room) ∧
  ¬ (Z.of_nat (length (get_list (Room.assignments (Room.mk "R1" 3 0 ∅)) "A"))
     ≤ (Room.Capacity (Room.mk "R1" 3 0 ∅) - 5) / 2).
Proof.
  split; [lia|]. split; [vm_compute; left|]. vm_compute. intros H. by apply H.
Qed.

(** C4 (amended): in sparse mode, whatever the buffer, the candidates of
    one course seated in one room in the slot are at most
    ⌊max(0, Capacity − b)/2⌋, which is ⌊(Capacity − b)/2⌋ for a room of
    capacity at least b.  With distinct room names their number is also
    the sum of Count over the Allocation Records that the call appends for
    that course and room. *)
Theorem sparse_half_limit si buf self r c :
  r ∈ rooms (after si buf "sparse" self) →
  let seated := Z.of_nat (length (get_list (Room.assignments r) c)) in
  seated ≤ Z.max 0 (Room.Capacity r - buf) / 2 ∧
  (buf ≤ Room.Capacity r → seated ≤ (Room.Capacity r - buf) / 2) ∧
  (NoDup (Room.Room <$> rooms self) →
   sumZ Alloc.Count
     (filter (λ a, Alloc.Room a = Room.Room r ∧ Alloc.Course a = c)
             (new_records si buf "sparse" self)) = seated).
Proof.
  intros Hr seated.
  pose proof (after_sparse_ok si buf self) as Hok.
  rewrite Forall_forall in Hok. destruct (Hok r Hr c) as [_ Hlen].
  unfold eff_cap in Hlen. fold seated in Hlen.
  split; [done|]. split.
  - intros Hcap. by rewrite Z.max_r in Hlen by lia.
  - intros Hnames.
    destruct (after_names si buf "sparse" self) as [Hsame _].
    rewrite <- Hsame in Hnames.
    rewrite sumZ_filter. fold (course_count_of (Room.Room r) c).
    rewrite new_records_seated. unfold seated_of.
    by rewrite (unique_room_sum
      (λ x, Z.of_nat (length (get_list (Room.assignments x) c))) _ r Hnames Hr).
Qed.

Lemma sparse_half_limit_witness :
  let r := Room.mk "R1" 4 4 (list_to_map [("A", ["a1"; "a2"]); ("B", ["b1"; "b2"])]) in
  Z.of_nat (length (get_list (Room.assignments r) "A")) ≤ Z.max 0 (4 - 0) / 2 ∧
  sumZ Alloc.Count
     (filter (λ a, Alloc.Room a = "R1" ∧ Alloc.Course a = "A")
             (new_records (sample_slot ["A"; "B"]) 0 "sparse" clean)) = 2.
Proof.
  intros r.
  destruct (sparse_half_limit (sample_slot ["A"; "B"]) 0 clean r "A")
    as (Hlen & _ & Hsum).
  - vm_compute. left.
  - split; [exact Hlen|]. apply Hsum.
    apply (bool_decide_unpack _). vm_compute. exact I.
Defined.

(** ** Candidates seated and dropped *)

(** C10: on a slot without a clash, the candidates in the records that
    the call appends for a course of the slot, in log order, are a front
    part of the roster of that course, and the candidates of the roster
    that are in no appended record are exactly the rest of it. *)
Theorem seated_prefix si buf mode self c :
  (check_clashes (Slot.Courses si) self).1 = false → c ∈ Slot.Courses si →
  let roster := get_list (course_enrollments self) c in
  let seated := seated_in c (new_records si buf mode self) in
  ∃ dropped, roster = seated ++ dropped ∧
    ∀ x, x ∈ dropped ↔
         x ∈ roster ∧ ∀ a, a ∈ new_records si buf mode self → x ∉ Alloc.Students a.
Proof.
  intros Hclean Hc roster seated. subst roster seated.
  rewrite new_records_clean by done.
  set (enr := course_enrollments self).
  set (cs := sort_courses enr (Slot.Courses si)).
  pose proof (proj1 (check_clashes_false _ _) Hclean) as Hnd. fold enr in Hnd.
  pose proof (sort_courses_rosters enr _ Hnd) as Hnd'. fold cs in Hnd'.
  pose proof (allocate_courses_courses si buf mode enr cs (reset <$> rooms self))
    as Hcourses.
  assert (∀ c', seated_in c'
            (allocate_courses si buf mode enr cs (reset <$> rooms self) []).2
            `prefix_of` get_list enr c') as Hprefix.
  { intros c'. by apply allocate_courses_prefix. }
  set (new := (allocate_courses si buf mode enr cs (reset <$> rooms self) []).2)
    in *.
  assert (∀ a x, a ∈ new → x ∈ Alloc.Students a →
            Alloc.Course a ∈ Slot.Courses si ∧ x ∈ seated_in (Alloc.Course a) new)
    as Hrec.
  { intros a x Ha Hx. split.
    - rewrite Forall_forall in Hcourses. specialize (Hcourses a Ha).
      unfold cs, sort_courses in Hcourses. by rewrite sorted_perm in Hcourses.
    - unfold seated_in. apply list_elem_of_bind. exists a. split; [done|].
      by apply list_elem_of_filter. }
  destruct (Hprefix c) as [dropped Hsplit]. exists dropped. split; [done|].
  pose proof (NoDup_rosters_roster enr _ c Hnd Hc) as Hroster.
  rewrite Hsplit in Hroster. apply NoDup_app in Hroster as (_ & Hdisj & _).
  intros x. split.
  - intros Hx. split; [rewrite Hsplit; apply elem_of_app; by right|].
    intros a Ha Hxa. destruct (Hrec a x Ha Hxa) as [Hca Hseated].
    destruct (decide (Alloc.Course a = c)) as [Heq|Hne].
    + rewrite Heq in Hseated. by apply (Hdisj x).
    + apply (NoDup_rosters_disjoint enr _ (Alloc.Course a) c x Hnd); try done.
      * destruct (Hprefix (Alloc.Course a)) as [k ->].
        apply elem_of_app. by left.
      * rewrite Hsplit. apply elem_of_app. by right.
  - intros [Hx Hfree]. rewrite Hsplit in Hx.
    apply elem_of_app in Hx as [Hx|Hx]; [|done]. exfalso.
    unfold seated_in in Hx. apply list_elem_of_bind in Hx as (a & Hxa & Ha).
    apply list_elem_of_filter in Ha as [_ Ha]. by apply (Hfree a).
Qed.

Lemma seated_prefix_witness :
  ∃ dropped,
    get_list (course_enrollments overflow) "A" =
    seated_in "A" (new_records (sample_slot ["A"]) 0 "dense" overflow) ++ dropped ∧
    ∀ x, x ∈ dropped ↔
         x ∈ get_list (course_enrollments overflow) "A" ∧
         ∀ a, a ∈ new_records (sample_slot ["A"]) 0 "dense" overflow →
              x ∉ Alloc.Students a.
Proof.
  apply (seated_prefix (sample_slot ["A"]) 0 "dense" overflow "A").
  - vm_compute. reflexivity.
  - simpl. left.
Defined.

(** ** The order of the courses *)

Lemma zip_with_replicate_zero (cs : list string) :
  mjoin (zip_with replicate (replicate (length cs) 0%nat) cs) = [].
Proof. induction cs as [|c cs IH]; simpl; [done|]. exact IH. Qed.

Lemma new_records_grouped si buf mode self :
  let cs := sort_courses (course_enrollments self) (Slot.Courses si) in
  ∃ ks, length ks = length cs ∧
    Alloc.Course <$> new_records si buf mode self =
    mjoin (zip_with replicate ks cs).
Proof.
  intros cs. destruct (check_clashes (Slot.Courses si) self).1 eqn:Hc.
  - rewrite new_records_clash by done. exists (replicate (length cs) 0%nat).
    split; [by rewrite length_replicate|].
    by rewrite zip_with_replicate_zero.
  - rewrite new_records_clean by done. apply allocate_courses_grouped.
Qed.

(** C8: the courses are processed in the order [sort_courses] gives: the
    course list of the slot rearranged by descending enrollment size, the
    courses of one size keeping their source order; the appended records
    come course by course in that order.  Courses A (50 candidates),
    B (10) and C (30) are processed in the order A, C, B. *)
Theorem largest_first si buf mode self :
  let enr := course_enrollments self in
  let cs := sort_courses enr (Slot.Courses si) in
  cs ≡ₚ Slot.Courses si ∧
  StronglySorted (desc (enrollment_size enr)) cs ∧
  (∀ k, filter (λ c, enrollment_size enr c = k) cs =
        filter (λ c, enrollment_size enr c = k) (Slot.Courses si)) ∧
  (∃ ks, length ks = length cs ∧
     Alloc.Course <$> new_records si buf mode self =
     mjoin (zip_with replicate ks cs)) ∧
  (∀ a b c, Slot.Courses si = [a; b; c] →
     enrollment_size enr a = 50%nat → enrollment_size enr b = 10%nat →
     enrollment_size enr c = 30%nat → cs = [a; c; b]).
Proof.
  intros enr cs. split; [apply sorted_perm|]. split; [apply sorted_sorted|].
  split; [intros k; apply sorted_stable|].
  split; [apply new_records_grouped|].
  intros a b c Hcs Ha Hb Hc. subst cs. rewrite Hcs.
  by apply sort_courses_example.
Qed.

Lemma largest_first_witness :
  sort_courses (course_enrollments three_courses) ["A"; "B"; "C"] =
  ["A"; "C"; "B"].
Proof.
  apply (largest_first (sample_slot ["A"; "B"; "C"]) 0 "dense" three_courses).
  - reflexivity.
  - vm_compute. reflexivity.
  - vm_compute. reflexivity.
  - vm_compute. reflexivity.
Defined.

(** ** The scenarios of the specification *)

Example largest_first_records :
  Alloc.Course <$> new_records (sample_slot ["A"; "B"; "C"]) 0 "dense" three_courses
  = ["A"; "C"; "C"; "B"].
Proof. vm_compute. reflexivity. Qed.

Example overflow_scenario :
  let self' := after (sample_slot ["A"]) 0 "dense" overflow in
  (λ a, (Alloc.Course a, Alloc.Room a, Alloc.Count a, Alloc.Students a))
    <$> allocations self' = [("A", "R1", 10, roll_numbers "a" 10)] ∧
  (λ s, (Stat.Room s, Stat.Allocated s, Stat.Free s)) <$> room_stats self'
    = [("R1", 10, 0)].
Proof. vm_compute. done. Qed.

Example shared_room_scenario :
  (λ a, (Alloc.Course a, Alloc.Room a, Alloc.Count a, Alloc.Students a))
    <$> allocations (after (sample_slot ["A"; "B"]) 0 "sparse" shared_room)
  = [("A", "R1", 10, roll_numbers "a" 10); ("B", "R1", 10, roll_numbers "b" 10)].
Proof. vm_compute. done. Qed.

(** * Further properties of the engine *)

#[local] Arguments rosters : simpl never.

(** ** Sums over the assignments of a room *)

Lemma sumZ_perm {A} (f : A → Z) (l k : list A) :
  l ≡ₚ k → sumZ f l = sumZ f k.
Proof.
  induction 1 as [|x l k _ IH|x y l|l k m _ IH1 _ IH2]; simpl; lia.
Qed.

Lemma assigned_insert (m : gmap string (list string)) c batch :
  sumZ (λ p, Z.of_nat (length p.2))
       (map_to_list (<[c := get_list m c ++ batch]> m)) =
  sumZ (λ p, Z.of_nat (length p.2)) (map_to_list m)
  + Z.of_nat (length batch).
Proof.
  unfold get_list. destruct (m !! c) as [old|] eqn:Hc; simpl.
  - rewrite <- (insert_delete_eq m).
    rewrite (sumZ_perm _ _ _ (map_to_list_insert (delete c m) c _
               (lookup_delete_eq m c))).
    rewrite <- (sumZ_perm _ _ _ (map_to_list_delete m c old Hc)).
    simpl. rewrite length_app. lia.
  - rewrite (sumZ_perm _ _ _ (map_to_list_insert m c _ Hc)). simpl. lia.
Qed.

Section MoreLoops.
Context (si : Slot.t) (buf : Z) (mode : string).

(** A property of the rooms that every room visit keeps is kept by the
    loops. *)
Lemma allocate_courses_Forall (P : Room.t → Prop) enr cs rs al :
  (∀ c st r, P r → P (seat si buf mode c st r []).1.1) →
  Forall P rs → Forall P (allocate_courses si buf mode enr cs rs al).1.
Proof.
  intros Hseat. revert rs al.
  induction cs as [|c cs IH]; intros rs al HP; simpl; [done|].
  destruct (get_list enr c) as [|s st]; [by apply IH|].
  pose proof (allocate_rooms_Forall si buf mode P P c (λ r H, H) (Hseat c)
                (s :: st) rs al HP) as Hrs.
  destruct (allocate_rooms si buf mode c (s :: st) rs al) as [[rs' al'] st'].
  by apply IH.
Qed.

(** A property of the records that every room visit gives its record,
    in rooms that have a property [Q] the visits keep, is had by all
    appended records. *)
Lemma allocate_rooms_records (Q : Room.t → Prop) (P : Alloc.t → Prop) c st rs :
  (∀ st r, Q r → Forall P (seat si buf mode c st r []).2) →
  Forall Q rs → Forall P (allocate_rooms si buf mode c st rs []).1.2.
Proof.
  intros Hseat. revert st.
  induction rs as [|r rs IH]; intros st HQ; simpl; [done|].
  destruct st as [|s st]; simpl; [done|].
  apply Forall_cons in HQ as [Hr Hrs]. specialize (Hseat (s :: st) r Hr).
  destruct (seat si buf mode c (s :: st) r []) as [[r' st'] new].
  rewrite allocate_rooms_log. specialize (IH st' Hrs).
  destruct (allocate_rooms si buf mode c st' rs []) as [[rs' new'] st''].
  simpl in *. by apply Forall_app.
Qed.

Lemma allocate_courses_records (Q : Room.t → Prop) (P : Alloc.t → Prop)
    enr cs rs :
  (∀ c st r, Q r → Q (seat si buf mode c st r []).1.1) →
  (∀ c st r, Q r → Forall P (seat si buf mode c st r []).2) →
  Forall Q rs → Forall P (allocate_courses si buf mode enr cs rs []).2.
Proof.
  intros HQ Hseat. revert rs.
  induction cs as [|c cs IH]; intros rs Hrs; simpl; [done|].
  destruct (get_list enr c) as [|s st]; [by apply IH|].
  pose proof (allocate_rooms_records Q P c (s :: st) rs (Hseat c) Hrs) as Hnew.
  pose proof (allocate_rooms_Forall si buf mode Q Q c (λ r H, H) (HQ c)
                (s :: st) rs [] Hrs) as Hrs'.
  destruct (allocate_rooms si buf mode c (s :: st) rs []) as [[rs' new] st'].
  rewrite allocate_courses_log. specialize (IH rs' Hrs').
  destruct (allocate_courses si buf mode enr cs rs' []) as [rs'' new'].
  simpl in *. by apply Forall_app.
Qed.

Lemma seat_assigned c st r :
  Room.filled r = assigned r →
  Room.filled (seat si buf mode c st r []).1.1 =
  assigned (seat si buf mode c st r []).1.1.
Proof.
  intros Hr.
  destruct (seat_cases si buf mode c st r []) as [(Hn & _ & _ & ->)|[_ ->]];
    simpl; [|done].
  unfold assigned. simpl. rewrite assigned_insert, length_take.
  unfold assigned in Hr. lia.
Qed.

Lemma seat_fill_ok c st r :
  fill_ok buf r → fill_ok buf (seat si buf mode c st r []).1.1.
Proof.
  unfold fill_ok. intros Hr.
  destruct (seat_cases si buf mode c st r []) as [(Hn & Hs & _ & ->)|[_ ->]];
    simpl; unfold eff_cap in *; simpl; lia.
Qed.

Lemma seat_record_of_slot c st r :
  Forall (λ a, record_of_slot si a ∧ Alloc.Course a = c ∧
               Alloc.Room a = Room.Room r)
         (seat si buf mode c st r []).2.
Proof.
  destruct (seat_cases si buf mode c st r []) as [(Hn & _ & _ & ->)|[_ ->]];
    simpl; [|done].
  constructor; [|done]. unfold record_of_slot. simpl.
  rewrite length_take. repeat split; lia.
Qed.

Lemma seat_name c st r :
  Room.Room (seat si buf mode c st r []).1.1 = Room.Room r.
Proof. apply seat_room_step. Qed.

(** The candidates of the appended records, in log order, are taken from
    the rosters of the course list in their order. *)
Lemma allocate_courses_sublist enr cs rs :
  (allocate_courses si buf mode enr cs rs []).2 ≫= Alloc.Students
    `sublist_of` rosters enr cs.
Proof.
  revert rs. induction cs as [|c cs IH]; intros rs; simpl; [done|].
  rewrite rosters_cons.
  destruct (get_list enr c) as [|s st] eqn:Hroster; [apply IH|].
  destruct (allocate_rooms_students si buf mode c (s :: st) rs) as [Hst _].
  destruct (allocate_rooms si buf mode c (s :: st) rs []) as [[rs' new] st'].
  rewrite allocate_courses_log. specialize (IH rs').
  destruct (allocate_courses si buf mode enr cs rs' []) as [rs'' new'].
  cbn [fst snd] in *. rewrite bind_app, Hst. apply sublist_app; [|done].
  by apply sublist_inserts_r.
Qed.

(** *** Dense mode *)

Lemma allocate_rooms_nil c rs al :
  allocate_rooms si buf mode c [] rs al = (rs, al, []).
Proof. by destruct rs. Qed.

(** In a mode other than sparse, candidates of the course remain only
    when the loop leaves every room full. *)
Lemma allocate_rooms_dense c st rs al :
  mode ≠ "sparse" → Forall (fill_ok buf) rs →
  (allocate_rooms si buf mode c st rs al).2 ≠ [] →
  Forall (full buf) (allocate_rooms si buf mode c st rs al).1.1.
Proof.
  intros Hmode. revert st al.
  induction rs as [|r rs IH]; intros st al Hok Hleft; simpl in *; [done|].
  destruct st as [|s st]; [done|].
  apply Forall_cons in Hok as [Hr Hrs].
  destruct (seat_cases si buf mode c (s :: st) r al)
    as [(Hn & Hspace & _ & Heq)|[Hn Heq]]; rewrite Heq in *; clear Heq.
  - set (n := take_count buf mode (s :: st) r) in *.
    specialize (IH (drop (Z.to_nat n) (s :: st))
                   (al ++ [record si c r n (take (Z.to_nat n) (s :: st))]) Hrs).
    destruct (allocate_rooms si buf mode c (drop (Z.to_nat n) (s :: st)) rs _)
      as [[rs' al'] st'] eqn:Hrec.
    simpl in *. constructor; [|by apply IH].
    destruct (drop (Z.to_nat n) (s :: st)) as [|s' st''] eqn:Hdrop.
    { rewrite allocate_rooms_nil in Hrec. by injection Hrec as _ _ <-. }
    assert (Z.to_nat n < length (s :: st))%nat as Hlt.
    { destruct (decide (Z.to_nat n < length (s :: st))%nat); [done|].
      rewrite drop_ge in Hdrop by lia. done. }
    unfold full, fill_ok, eff_cap in *. simpl.
    subst n. unfold take_count, space_in_room, subj_limit, eff_cap in *.
    destruct (String.eqb_spec mode "sparse"); [done|]. lia.
  - specialize (IH (s :: st) al Hrs).
    destruct (allocate_rooms si buf mode c (s :: st) rs al)
      as [[rs' al'] st'].
    simpl in *. constructor; [|by apply IH].
    unfold full, fill_ok, eff_cap in *.
    unfold take_count, space_in_room, subj_limit, eff_cap in Hn.
    destruct (String.eqb_spec mode "sparse"); [done|]. simpl in Hn. lia.
Qed.

Lemma seat_full c st r :
  full buf r → full buf (seat si buf mode c st r []).1.1.
Proof.
  unfold full. intros Hr.
  destruct (seat_cases si buf mode c st r []) as [(Hn & Hs & _ & ->)|[_ ->]];
    simpl; unfold eff_cap in *; simpl; lia.
Qed.

(** In a mode other than sparse and without a clash, either every
    course is seated whole or every room ends full. *)
Lemma allocate_courses_dense enr cs rs :
  mode ≠ "sparse" → NoDup (rosters enr cs) → Forall (fill_ok buf) rs →
  let out := allocate_courses si buf mode enr cs rs [] in
  (∀ c, c ∈ cs → seated_in c out.2 = get_list enr c) ∨
  Forall (full buf) out.1.
Proof.
  intros Hmode. revert rs.
  induction cs as [|c0 cs IH]; intros rs Hnd Hok; simpl.
  { left. by intros c ?%elem_of_nil. }
  pose proof (NoDup_rosters_head enr c0 cs Hnd) as Hhead.
  pose proof (allocate_courses_prefix si buf mode enr (c0 :: cs) rs c0 Hnd)
    as Hpre0. simpl in Hpre0.
  rewrite rosters_cons in Hnd. apply NoDup_app in Hnd as (_ & _ & Hcs).
  destruct (get_list enr c0) as [|s st] eqn:Hroster.
  { destruct (IH rs Hcs Hok) as [Hall|Hfull]; [left|by right].
    intros c [->|Hc]%elem_of_cons; [|by apply Hall].
    rewrite Hroster. by apply prefix_nil_inv. }
  clear Hpre0. assert (c0 ∉ cs) as Hfresh by (by apply Hhead).
  pose proof (allocate_rooms_dense c0 (s :: st) rs [] Hmode Hok) as Hdense.
  pose proof (allocate_rooms_Forall si buf mode _ _ c0 (λ r H, H)
                (seat_fill_ok c0) (s :: st) rs [] Hok) as Hok'.
  destruct (allocate_rooms_students si buf mode c0 (s :: st) rs) as [Hst Hc0].
  destruct (allocate_rooms si buf mode c0 (s :: st) rs []) as [[rs' new] st'].
  rewrite allocate_courses_log.
  pose proof (allocate_courses_courses si buf mode enr cs rs') as Hin.
  pose proof (allocate_courses_Forall (full buf) enr cs rs' [] seat_full)
    as Hkeep.
  specialize (IH rs' Hcs Hok').
  destruct (allocate_courses si buf mode enr cs rs' []) as [rs'' new'].
  simpl in *. destruct st' as [|s' st'].
  - destruct IH as [Hall|Hfull]; [left|by right].
    rewrite app_nil_r in Hst.
    intros c [->|Hc]%elem_of_cons; rewrite seated_in_app.
    + rewrite (seated_in_same c0 new Hc0),
        (seated_in_absent c0 cs new' Hfresh Hin).
      by rewrite app_nil_r, Hroster.
    + rewrite (seated_in_other c c0 new); [by apply Hall| |done].
      by intros ->.
  - right. apply Hkeep, Hdense. done.
Qed.
End MoreLoops.

(** ** The records and the rooms of one call *)

Lemma after_room_origin si buf mode self r' :
  r' ∈ rooms (after si buf mode self) →
  ∃ r, r ∈ rooms self ∧ Room.Room r' = Room.Room r ∧
       Room.Capacity r' = Room.Capacity r.
Proof.
  intros Hr'. pose proof (after_room_step si buf mode self) as Hstep.
  apply list_elem_of_lookup in Hr' as [i Hi].
  destruct (Forall2_lookup_r _ _ _ _ _ Hstep Hi) as (r0 & Hr0 & Hname & Hcap & _).
  rewrite list_lookup_fmap in Hr0.
  destruct (rooms self !! i) as [r|] eqn:Hr; [|done].
  injection Hr0 as <-. exists r. split; [|done].
  apply list_elem_of_lookup. by exists i.
Qed.

Lemma reset_rooms_Forall (P : Room.t → Prop) rs :
  (∀ r, r ∈ rs → P (reset r)) → Forall P (reset <$> rs).
Proof.
  intros HP. apply Forall_forall. intros r (r0 & -> & Hr0)%list_elem_of_fmap.
  by apply HP.
Qed.

(** X1: every Allocation Record that a call appends carries the date,
    ISO date, day and session of its slot, a course of the slot's course
    list and the name of a room of the pool; its count is positive and is
    the number of candidates it lists. *)
Theorem records_well_formed si buf mode self a :
  a ∈ new_records si buf mode self →
  record_of_slot si a ∧
  Alloc.Course a ∈ Slot.Courses si ∧
  Alloc.Room a ∈ Room.Room <$> rooms self.
Proof.
  destruct (check_clashes (Slot.Courses si) self).1 eqn:Hc.
  { rewrite new_records_clash by done. by intros ?%elem_of_nil. }
  rewrite new_records_clean by done. intros Ha.
  set (enr := course_enrollments self) in *.
  pose proof (allocate_courses_courses si buf mode enr
                (sort_courses enr (Slot.Courses si)) (reset <$> rooms self))
    as Hcourses.
  assert (Forall (λ a, record_of_slot si a ∧
                       Alloc.Room a ∈ Room.Room <$> rooms self)
            (allocate_courses si buf mode enr
               (sort_courses enr (Slot.Courses si)) (reset <$> rooms self) []).2)
    as Hrecords.
  { apply (allocate_courses_records si buf mode
             (λ r, Room.Room r ∈ Room.Room <$> rooms self)).
    - intros c st r Hr. by rewrite seat_name.
    - intros c st r Hr.
      eapply Forall_impl; [apply seat_record_of_slot|].
      intros a' (Ha' & _ & ->). done.
    - apply reset_rooms_Forall. intros r Hr. simpl.
      by apply list_elem_of_fmap_2. }
  rewrite Forall_forall in Hcourses. rewrite Forall_forall in Hrecords.
  destruct (Hrecords a Ha) as [Hslot Hroom].
  split; [done|]. split; [|done].
  specialize (Hcourses a Ha). unfold sort_courses in Hcourses.
  by rewrite sorted_perm in Hcourses.
Qed.

Lemma records_well_formed_witness :
  let a := Alloc.mk "01-12-2025" "20251201" "Monday" "Morning" "A" "R1" 3
                    ["a1"; "a2"; "a3"] in
  record_of_slot (sample_slot ["A"; "B"]) a ∧
  Alloc.Course a ∈ ["A"; "B"] ∧ Alloc.Room a ∈ ["R1"; "R2"].
Proof.
  intros a.
  apply (records_well_formed (sample_slot ["A"; "B"]) 0 "dense" clean a).
  vm_compute. left.
Defined.

(** X2: within one call nobody is seated twice, and everyone seated is
    on the roster of the record's course: the candidates of the appended
    records, taken in log order, have no repetition and each is enrolled
    in the course of the record that lists them. *)
Theorem seated_once_and_enrolled si buf mode self :
  NoDup (new_records si buf mode self ≫= Alloc.Students) ∧
  ∀ a x, a ∈ new_records si buf mode self → x ∈ Alloc.Students a →
         x ∈ get_list (course_enrollments self) (Alloc.Course a).
Proof.
  destruct (check_clashes (Slot.Courses si) self).1 eqn:Hc.
  { rewrite new_records_clash by done. split; [constructor|].
    by intros a x ?%elem_of_nil. }
  rewrite new_records_clean by done.
  set (enr := course_enrollments self).
  pose proof (proj1 (check_clashes_false _ _) Hc) as Hnd. fold enr in Hnd.
  apply sort_courses_rosters in Hnd. split.
  - eapply sublist_NoDup; [exact Hnd|]. apply allocate_courses_sublist.
  - intros a x Ha Hx.
    pose proof (allocate_courses_prefix si buf mode enr _ (reset <$> rooms self)
                  (Alloc.Course a) Hnd) as [k Hk].
    rewrite Hk. apply elem_of_app. left.
    unfold seated_in. apply list_elem_of_bind. exists a. split; [done|].
    by apply list_elem_of_filter.
Qed.

(** X3: after a call the fill of every room is the number of candidates
    in the lists of its assignments. *)
Theorem fill_is_assigned si buf mode self r :
  r ∈ rooms (after si buf mode self) → Room.filled r = assigned r.
Proof.
  assert (Forall (λ r, Room.filled r = assigned r) (reset <$> rooms self))
    as Hreset.
  { apply reset_rooms_Forall. intros r0 _. unfold assigned. simpl.
    by rewrite map_to_list_empty. }
  intros Hr. destruct (check_clashes (Slot.Courses si) self).1 eqn:Hc.
  - rewrite after_clash in Hr by done. rewrite Forall_forall in Hreset.
    by apply Hreset.
  - rewrite rooms_clean in Hr by done.
    pose proof (allocate_courses_Forall si buf mode _ (course_enrollments self)
                  (sort_courses (course_enrollments self) (Slot.Courses si))
                  (reset <$> rooms self) []
                  (seat_assigned si buf mode) Hreset) as Hall.
    rewrite Forall_forall in Hall. by apply Hall.
Qed.

Lemma fill_is_assigned_witness :
  let r := Room.mk "R1" 4 4
             (list_to_map [("A", ["a1"; "a2"; "a3"]); ("B", ["b1"])]) in
  Room.filled r = assigned r.
Proof.
  intros r.
  apply (fill_is_assigned (sample_slot ["A"; "B"]) 0 "dense" clean r).
  vm_compute. left.
Defined.

Lemma seated_once_and_enrolled_witness :
  NoDup (new_records (sample_slot ["A"; "B"]) 0 "dense" clean ≫= Alloc.Students) ∧
  "b2" ∈ get_list (course_enrollments clean) "B".
Proof.
  destruct (seated_once_and_enrolled (sample_slot ["A"; "B"]) 0 "dense" clean)
    as [Hnd Hin].
  split; [exact Hnd|].
  apply (Hin (Alloc.mk "01-12-2025" "20251201" "Monday" "Morning" "B" "R2" 1
                       ["b2"]) "b2").
  - vm_compute. right. right. left.
  - left.
Defined.

(** ** Room statistics *)

(** X4: with distinct room names, every Room Statistic that a call
    appends belongs to a room of the pool: it bears the slot's date and
    session and the room's name, its allocated and free counts add up to
    the room's capacity, its allocated count is the sum of Count over the
    Allocation Records the call appends for that room, and it lies
    between 0 and the effective capacity max(0, Capacity − buffer). *)
Theorem stats_match_records si buf mode self s :
  NoDup (Room.Room <$> rooms self) →
  s ∈ new_stats si buf mode self →
  Stat.Date s = Slot.Date si ∧ Stat.Session s = Slot.Session si ∧
  ∃ r, r ∈ rooms self ∧ Stat.Room s = Room.Room r ∧
       Stat.Allocated s + Stat.Free s = Room.Capacity r ∧
       Stat.Allocated s =
         sumZ Alloc.Count (filter (λ a, Alloc.Room a = Room.Room r)
                                  (new_records si buf mode self)) ∧
       0 ≤ Stat.Allocated s ≤ Z.max 0 (Room.Capacity r - buf).
Proof.
  intros Hnames. destruct (check_clashes (Slot.Courses si) self).1 eqn:Hc.
  { unfold new_stats. rewrite after_clash by done. simpl.
    rewrite appended_same. by intros ?%elem_of_nil. }
  unfold new_stats. rewrite after_clean by done. cbn [room_stats].
  rewrite appended_app, <- rooms_clean by done.
  intros (r' & -> & Hr')%list_elem_of_fmap. simpl.
  split; [done|]. split; [done|].
  destruct (after_room_origin si buf mode self r' Hr') as (r & Hr & Hname & Hcap).
  exists r. split; [done|]. split; [done|]. split; [lia|].
  assert (Forall (fill_ok buf) (rooms (after si buf mode self))) as Hok.
  { rewrite rooms_clean by done. apply allocate_courses_Forall.
    - apply seat_fill_ok.
    - apply reset_rooms_Forall. intros r0 _. unfold fill_ok, eff_cap. simpl. lia. }
  rewrite Forall_forall in Hok. specialize (Hok r' Hr').
  unfold fill_ok, eff_cap in Hok. rewrite Hcap in Hok. split; [|done].
  destruct (after_names si buf mode self) as [Hsame _].
  rewrite <- Hsame in Hnames. rewrite <- Hname.
  rewrite sumZ_filter. fold (count_of (Room.Room r')).
  rewrite new_records_fill. unfold fill_of.
  by rewrite (unique_room_sum Room.filled _ r' Hnames Hr').
Qed.

Lemma stats_match_records_witness :
  let s := Stat.mk "01-12-2025" "Morning" "R2" 1 2 in
  ∃ r, r ∈ rooms clean ∧ Stat.Room s = Room.Room r ∧
       Stat.Allocated s + Stat.Free s = Room.Capacity r ∧
       Stat.Allocated s =
         sumZ Alloc.Count
           (filter (λ a, Alloc.Room a = Room.Room r)
                   (new_records (sample_slot ["A"; "B"]) 0 "dense" clean)) ∧
       0 ≤ Stat.Allocated s ≤ Z.max 0 (Room.Capacity r - 0).
Proof.
  intros s.
  apply (stats_match_records (sample_slot ["A"; "B"]) 0 "dense" clean s).
  - apply (bool_decide_unpack _). vm_compute. exact I.
  - vm_compute. right. left.
Defined.

(** ** Dense mode wastes no seat *)

(** X5: in a mode other than sparse, on a slot without a clash, either
    every course of the slot has its whole roster seated, or every room
    ends filled to its effective capacity max(0, Capacity − buffer):
    candidates are dropped only when no seat is left. *)
Theorem dense_seats_all_or_fills si buf mode self :
  mode ≠ "sparse" → (check_clashes (Slot.Courses si) self).1 = false →
  (∀ c, c ∈ Slot.Courses si →
        seated_in c (new_records si buf mode self) =
        get_list (course_enrollments self) c) ∨
  Forall (full buf) (rooms (after si buf mode self)).
Proof.
  intros Hmode Hc. rewrite new_records_clean, rooms_clean by done.
  set (enr := course_enrollments self).
  pose proof (proj1 (check_clashes_false _ _) Hc) as Hnd. fold enr in Hnd.
  apply sort_courses_rosters in Hnd.
  destruct (allocate_courses_dense si buf mode enr _ (reset <$> rooms self)
              Hmode Hnd) as [Hall|Hfull].
  - apply reset_rooms_Forall. intros r _. unfold fill_ok, eff_cap. simpl. lia.
  - left. intros c Hin. apply Hall. unfold sort_courses.
    by rewrite sorted_perm.
  - by right.
Qed.

Lemma dense_seats_all_or_fills_witness :
  (∀ c, c ∈ ["A"] →
        seated_in c (new_records (sample_slot ["A"]) 0 "dense" overflow) =
        get_list (course_enrollments overflow) c) ∨
  Forall (full 0) (rooms (after (sample_slot ["A"]) 0 "dense" overflow)).
Proof.
  apply (dense_seats_all_or_fills (sample_slot ["A"]) 0 "dense" overflow).
  - intros Heq. discriminate Heq.
  - vm_compute. reflexivity.
Defined.

(** ** No leakage between calls *)

Lemma reset_same_pool (rs1 rs2 : list Room.t) :
  Room.Room <$> rs1 = Room.Room <$> rs2 →
  Room.Capacity <$> rs1 = Room.Capacity <$> rs2 →
  reset <$> rs1 = reset <$> rs2.
Proof.
  revert rs2. induction rs1 as [|r1 rs1 IH]; intros [|r2 rs2]; csimpl;
    try done.
  intros [= Hname Hnames] [= Hcap Hcaps]. unfold reset at 1 3.
  rewrite Hname, Hcap. f_equal. by apply IH.
Qed.

Lemma same_reset_same_call si buf mode s1 s2 :
  course_enrollments s1 = course_enrollments s2 →
  reset <$> rooms s1 = reset <$> rooms s2 →
  new_records si buf mode s1 = new_records si buf mode s2 ∧
  new_stats si buf mode s1 = new_stats si buf mode s2 ∧
  rooms (after si buf mode s1) = rooms (after si buf mode s2).
Proof.
  intros Henr Hreset.
  assert ((check_clashes (Slot.Courses si) s1).1 =
          (check_clashes (Slot.Courses si) s2).1) as Hsame.
  { rewrite !check_clashes_run. simpl. by rewrite Henr. }
  unfold new_stats.
  destruct (check_clashes (Slot.Courses si) s2).1 eqn:Hc.
  - rewrite !new_records_clash, !after_clash by done. simpl.
    by rewrite !appended_same, Hreset.
  - rewrite !new_records_clean, !after_clean by done. simpl.
    by rewrite !appended_app, Henr, Hreset.
Qed.

(** X6: what a call does depends on the rooms only through their names
    and capacities, and not on the two logs: on two states with the same
    enrollment index and the same pool of (name, capacity), whatever
    fills, assignments and logs earlier calls left, the call appends the
    same Allocation Records and the same Room Statistics and leaves the
    same rooms. *)
Theorem no_leakage si buf mode s1 s2 :
  course_enrollments s1 = course_enrollments s2 →
  Room.Room <$> rooms s1 = Room.Room <$> rooms s2 →
  Room.Capacity <$> rooms s1 = Room.Capacity <$> rooms s2 →
  new_records si buf mode s1 = new_records si buf mode s2 ∧
  new_stats si buf mode s1 = new_stats si buf mode s2 ∧
  rooms (after si buf mode s1) = rooms (after si buf mode s2).
Proof.
  intros Henr Hnames Hcaps.
  apply same_reset_same_call; [done|].
  by apply reset_same_pool.
Qed.

Lemma no_leakage_witness :
  new_records (sample_slot ["A"; "B"]) 0 "sparse"
              (after (sample_slot ["B"; "A"]) 1 "dense" clean) =
  new_records (sample_slot ["A"; "B"]) 0 "sparse" clean.
Proof.
  apply (no_leakage (sample_slot ["A"; "B"]) 0 "sparse"
           (after (sample_slot ["B"; "A"]) 1 "dense" clean) clean).
  - vm_compute. reflexivity.
  - vm_compute. reflexivity.
  - vm_compute. reflexivity.
Defined.

(** * The run over the schedule (app.py) *)

Lemma after_frame si buf mode self :
  schedule (after si buf mode self) = schedule self ∧
  course_enrollments (after si buf mode self) = course_enrollments self ∧
  student_names (after si buf mode self) = student_names self.
Proof.
  destruct (check_clashes (Slot.Courses si) self).1 eqn:Hc.
  - by rewrite after_clash.
  - by rewrite after_clean.
Qed.

Lemma after_logs si buf mode self :
  allocations (after si buf mode self) =
    allocations self ++ new_records si buf mode self ∧
  room_stats (after si buf mode self) =
    room_stats self ++ new_stats si buf mode self.
Proof.
  unfold new_records, new_stats.
  destruct (check_clashes (Slot.Courses si) self).1 eqn:Hc.
  - rewrite after_clash by done. simpl. by rewrite !appended_same, !app_nil_r.
  - rewrite after_clean by done. simpl. by rewrite !appended_app.
Qed.

Lemma for_slots_cons si slots buf mode self :
  for_slots (si :: slots) buf mode self =
  for_slots slots buf mode (after si buf mode self).
Proof.
  simpl. unfold mbind, M_bind, after.
  by destruct (allocate_session si buf mode self) as [[] self'].
Qed.

Lemma after_same_pool si0 si buf mode self :
  new_records si buf mode (after si0 buf mode self) = new_records si buf mode self ∧
  new_stats si buf mode (after si0 buf mode self) = new_stats si buf mode self ∧
  rooms (after si buf mode (after si0 buf mode self)) =
  rooms (after si buf mode self).
Proof.
  destruct (after_frame si0 buf mode self) as (_ & Henr & _).
  destruct (after_names si0 buf mode self) as [Hnames Hcaps].
  apply same_reset_same_call; [done|]. by apply reset_same_pool.
Qed.

Lemma for_slots_frame slots buf mode self :
  let self' := (for_slots slots buf mode self).2 in
  schedule self' = schedule self ∧
  course_enrollments self' = course_enrollments self ∧
  student_names self' = student_names self ∧
  Room.Room <$> rooms self' = Room.Room <$> rooms self ∧
  Room.Capacity <$> rooms self' = Room.Capacity <$> rooms self.
Proof.
  revert self. induction slots as [|si slots IH]; intros self; [done|].
  rewrite for_slots_cons. cbn zeta.
  destruct (IH (after si buf mode self)) as (Hsch & Henr & Hnm & Hnames & Hcaps).
  destruct (after_frame si buf mode self) as (Hsch' & Henr' & Hnm').
  destruct (after_names si buf mode self) as [Hnames' Hcaps'].
  by rewrite Hsch, Henr, Hnm, Hnames, Hcaps, Hsch', Henr', Hnm', Hnames', Hcaps'.
Qed.

Lemma process_schedule_run buf choice self :
  process_schedule buf choice self =
  for_slots (schedule self) buf (lower (label choice)) self.
Proof. reflexivity. Qed.

Lemma for_slots_logs slots buf mode self :
  let self' := (for_slots slots buf mode self).2 in
  allocations self' =
    allocations self ++ (slots ≫= λ si, new_records si buf mode self) ∧
  room_stats self' =
    room_stats self ++ (slots ≫= λ si, new_stats si buf mode self).
Proof.
  revert self. induction slots as [|si slots IH]; intros self.
  { simpl. by rewrite !app_nil_r. }
  rewrite for_slots_cons. cbn zeta.
  destruct (IH (after si buf mode self)) as [-> ->].
  destruct (after_logs si buf mode self) as [-> ->].
  rewrite !bind_cons, <- !app_assoc.
  split; do 2 f_equal; (apply list_bind_ext; [|done]); intros si';
    apply after_same_pool.
Qed.

(** X7: the run over the schedule only appends to the two logs, and what
    it appends is, slot after slot in schedule order, what each slot
    appends when processed alone on the state before the run: no slot is
    affected by the slots before it.  The schedule, the enrollment index,
    the names and the pool of (name, capacity) are as before the run. *)
Theorem process_schedule_logs buf choice self :
  let mode := lower (label choice) in
  let self' := (process_schedule buf choice self).2 in
  allocations self' =
    allocations self ++ (schedule self ≫= λ si, new_records si buf mode self) ∧
  room_stats self' =
    room_stats self ++ (schedule self ≫= λ si, new_stats si buf mode self) ∧
  schedule self' = schedule self ∧
  course_enrollments self' = course_enrollments self ∧
  student_names self' = student_names self ∧
  Room.Room <$> rooms self' = Room.Room <$> rooms self ∧
  Room.Capacity <$> rooms self' = Room.Capacity <$> rooms self.
Proof.
  intros mode. rewrite process_schedule_run. fold mode.
  destruct (for_slots_logs (schedule self) buf mode self) as [Hal Hst].
  split; [exact Hal|]. split; [exact Hst|]. apply for_slots_frame.
Qed.

Lemma for_slots_app slots1 slots2 buf mode self :
  (for_slots (slots1 ++ slots2) buf mode self).2 =
  (for_slots slots2 buf mode (for_slots slots1 buf mode self).2).2.
Proof.
  revert self. induction slots1 as [|si slots IH]; intros self; [done|].
  rewrite <- app_comm_cons, !for_slots_cons. apply IH.
Qed.

(** X8: the rooms after the run are the rooms that the last slot of the
    schedule leaves when processed alone: fills and assignments do not
    add up over the slots.  With an empty schedule the run changes
    nothing. *)
Theorem process_schedule_rooms buf choice self :
  let mode := lower (label choice) in
  (schedule self = [] → (process_schedule buf choice self).2 = self) ∧
  (∀ slots last, schedule self = slots ++ [last] →
     rooms (process_schedule buf choice self).2 =
     rooms (after last buf mode self)).
Proof.
  intros mode. rewrite process_schedule_run. split.
  - by intros ->.
  - intros slots last ->. rewrite for_slots_app. fold mode.
    set (mid := (for_slots slots buf mode self).2).
    rewrite for_slots_cons. simpl.
    destruct (for_slots_frame slots buf mode self)
      as (_ & Henr & _ & Hnames & Hcaps).
    fold mid in Henr, Hnames, Hcaps.
    apply same_reset_same_call; [done|]. by apply reset_same_pool.
Qed.

Lemma process_schedule_rooms_witness :
  rooms (process_schedule 0 Dense two_slots).2 =
  rooms (after (evening_slot ["B"; "A"]) 0 "dense" two_slots).
Proof.
  apply (process_schedule_rooms 0 Dense two_slots) with (slots := [sample_slot ["A"]]).
  reflexivity.
Defined.

(** * The attendance sheets *)

(** ** The dictionary of groups *)

Lemma students_of_extend key key' students grouped :
  students_of key' (extend_group key students grouped) =
  if decide (key' = key)
  then Some (default [] (students_of key grouped) ++ students)
  else students_of key' grouped.
Proof.
  induction grouped as [|[k l] g IH]; simpl.
  - destruct (decide (key = key')), (decide (key' = key)); congruence.
  - destruct (decide (k = key)) as [->|Hk]; simpl.
    + destruct (decide (key = key')), (decide (key' = key)); congruence.
    + rewrite IH. destruct (decide (k = key')) as [->|Hk']; [|done].
      by rewrite decide_False.
Qed.

Lemma keys_extend key students grouped :
  (extend_group key students grouped).*1 =
  if decide (key ∈ grouped.*1) then grouped.*1 else grouped.*1 ++ [key].
Proof.
  induction grouped as [|[k l] g IH]; [done|].
  cbn [extend_group]. destruct (decide (k = key)) as [->|Hk]; csimpl.
  - rewrite decide_True; [done|]. by left.
  - rewrite IH. destruct (decide (key ∈ g.*1)) as [Hin|Hout].
    + rewrite decide_True; [done|]. by right.
    + rewrite decide_False; [done|].
      intros [?|?]%elem_of_cons; congruence.
Qed.

Lemma students_of_Some key grouped l :
  NoDup grouped.*1 → (key, l) ∈ grouped ↔ students_of key grouped = Some l.
Proof.
  induction grouped as [|[k l0] g IH]; simpl.
  - intros _. split; [by intros ?%elem_of_nil|done].
  - intros [Hk Hg]%NoDup_cons. destruct (decide (k = key)) as [->|Hne].
    + split.
      * intros [[= ->]|Hin]%elem_of_cons; [done|].
        exfalso. apply Hk. by apply (list_elem_of_fmap_2 fst _ (key, l)).
      * intros [= ->]. by left.
    + rewrite <- (IH Hg). split.
      * intros [Heq|Hin]%elem_of_cons; [|done].
        injection Heq as Hkey _. by destruct Hne.
      * intros Hin. by right.
Qed.

Lemma students_of_None key grouped :
  students_of key grouped = None ↔ key ∉ grouped.*1.
Proof.
  induction grouped as [|[k l0] g IH]; simpl.
  - split; [|done]. intros _ ?%elem_of_nil. done.
  - destruct (decide (k = key)) as [->|Hne].
    + split; [done|]. intros Hout. exfalso. apply Hout. by left.
    + rewrite IH. split.
      * intros Hout [Heq|Hin]%elem_of_cons; [by destruct Hne|done].
      * intros Hout Hin. apply Hout. by right.
Qed.

Lemma listed_under_snoc key log a :
  listed_under key (log ++ [a]) =
  listed_under key log ++
  (if decide (key_of a = key) then Alloc.Students a else []).
Proof.
  unfold listed_under. rewrite filter_app, bind_app. f_equal.
  rewrite filter_cons, filter_nil.
  destruct (decide (key_of a = key)); simpl; [by rewrite app_nil_r|done].
Qed.

(** The invariant of [for alloc in self.allocations]. *)
Lemma group_loop_spec log grouped done :
  NoDup grouped.*1 →
  (∀ k, students_of k grouped =
        if decide (k ∈ key_of <$> done) then Some (listed_under k done) else None) →
  let out := foldl (λ grouped alloc,
               extend_group (key_of alloc) (Alloc.Students alloc) grouped)
               grouped log in
  NoDup out.*1 ∧
  ∀ k, students_of k out =
       if decide (k ∈ key_of <$> (done ++ log))
       then Some (listed_under k (done ++ log)) else None.
Proof.
  revert grouped done. induction log as [|a log IH]; intros g done Hnd Hg.
  { simpl. by rewrite app_nil_r. }
  simpl. specialize (IH (extend_group (key_of a) (Alloc.Students a) g)
                        (done ++ [a])).
  rewrite <- app_assoc in IH. simpl in IH. apply IH.
  - rewrite keys_extend. destruct (decide (key_of a ∈ g.*1)); [done|].
    apply NoDup_app. split; [done|]. split; [|apply NoDup_singleton].
    intros k Hk ->%list_elem_of_singleton. done.
  - intros k. rewrite students_of_extend, listed_under_snoc, fmap_app.
    pose proof (Hg k) as Hk. pose proof (Hg (key_of a)) as Ha.
    destruct (decide (k = key_of a)) as [->|Hne].
    + rewrite decide_True by (apply elem_of_app; right; by left).
      rewrite decide_True by done. rewrite Ha.
      destruct (decide (key_of a ∈ key_of <$> done)) as [Hin|Hout]; simpl;
        [done|].
      unfold listed_under. rewrite filter_none; [done|].
      intros a' Ha' Heq. apply Hout. rewrite <- Heq.
      by apply list_elem_of_fmap_2.
    + rewrite (decide_False (P := key_of a = k)) by done.
      rewrite app_nil_r, Hk.
      destruct (decide (k ∈ key_of <$> done)) as [Hin|Hout].
      * rewrite decide_True; [done|]. apply elem_of_app. by left.
      * rewrite decide_False; [done|].
        intros [Hin|Hin%list_elem_of_singleton]%elem_of_app; done.
Qed.

(** X9: the groups of [generate_attendance_sheets] have distinct keys,
    one for every key that occurs in the log, and the candidates under a
    key are those of the records with that key, in log order. *)
Theorem group_allocations_spec log :
  NoDup (group_allocations log).*1 ∧
  ∀ k l, (k, l) ∈ group_allocations log ↔
         k ∈ key_of <$> log ∧ l = listed_under k log.
Proof.
  destruct (group_loop_spec log [] []) as [Hnd Hout].
  { constructor. }
  { by intros k. }
  simpl in Hout. fold (group_allocations log) in Hnd, Hout.
  split; [done|]. intros k l. rewrite (students_of_Some _ _ _ Hnd), Hout.
  destruct (decide (k ∈ key_of <$> log)) as [Hin|Hno].
  - split; [by intros [= <-]|]. by intros [_ ->].
  - split; [done|]. by intros [? _].
Qed.

Lemma group_allocations_spec_witness :
  (("20251201", "01-12-2025", "Monday", "Morning", "R1", "A"),
   ["a1"; "a2"; "a3"]) ∈
  group_allocations (new_records (sample_slot ["A"; "B"]) 0 "dense" clean).
Proof.
  apply (group_allocations_spec
           (new_records (sample_slot ["A"; "B"]) 0 "dense" clean)).
  split.
  - vm_compute. left.
  - vm_compute. reflexivity.
Defined.

(** ** The sheets and the log *)

Lemma extend_group_flat key students (grouped : list (sheet_key * list string)) :
  extend_group key students grouped ≫= snd ≡ₚ (grouped ≫= snd) ++ students.
Proof.
  induction grouped as [|[k l] g IH]; cbn [extend_group].
  - simpl. by rewrite app_nil_r.
  - destruct (decide (k = key)) as [->|Hk]; rewrite !bind_cons; simpl.
    + rewrite <- !app_assoc. f_equiv. apply Permutation_app_comm.
    + rewrite IH. by rewrite app_assoc.
Qed.

Lemma group_loop_flat log (grouped : list (sheet_key * list string)) :
  foldl (λ grouped alloc,
           extend_group (key_of alloc) (Alloc.Students alloc) grouped)
        grouped log ≫= snd
  ≡ₚ (grouped ≫= snd) ++ (log ≫= Alloc.Students).
Proof.
  revert grouped. induction log as [|a log IH]; intros g; cbn [foldl].
  - by rewrite app_nil_r.
  - rewrite IH, extend_group_flat, bind_cons. by rewrite app_assoc.
Qed.

Lemma group_allocations_length log :
  (length (group_allocations log) ≤ length log)%nat.
Proof.
  unfold group_allocations.
  assert (∀ g : list (sheet_key * list string),
            length (foldl (λ grouped alloc,
                      extend_group (key_of alloc) (Alloc.Students alloc) grouped)
                      g log) ≤ length g + length log)%nat as Hgen.
  { induction log as [|a log IH]; intros g; simpl; [lia|].
    etrans; [apply IH|].
    assert (length (extend_group (key_of a) (Alloc.Students a) g)
            ≤ S (length g))%nat; [|lia].
    clear. induction g as [|[k l] g IH]; simpl; [lia|].
    destruct (decide (k = key_of a)); simpl; lia. }
  apply (Hgen []).
Qed.

(** X10: the attendance sheets cover the log: the rolls on all sheets
    together are the candidates of all records together, rearranged, so
    that nobody is lost or doubled by the grouping; there are at most as
    many sheets as records; and on every sheet the count is the number of
    students listed, each with the name found for the roll, "Unknown"
    when none is, and the photo file name [roll.jpg]. *)
Theorem sheets_cover_log isalnum os_path_join self :
  let sheets := generate_attendance_sheets isalnum os_path_join self in
  (sheets ≫= λ sh, obj_roll <$> sh.2) ≡ₚ allocations self ≫= Alloc.Students ∧
  (length sheets ≤ length (allocations self))%nat ∧
  Forall (λ sh,
    meta_count sh.1.2 = length sh.2 ∧
    Forall (λ o, obj_name o = default "Unknown" (student_names self !! obj_roll o) ∧
                 obj_photo_filename o = obj_roll o +:+ ".jpg") sh.2) sheets.
Proof.
  intros sheets. subst sheets. unfold generate_attendance_sheets.
  split; [|split].
  - rewrite list_fmap_bind.
    transitivity (group_allocations (allocations self) ≫= snd);
      [|apply (group_loop_flat (allocations self) [])].
    erewrite list_bind_ext; [reflexivity| |reflexivity].
    intros [[[[[[iso date] day] session] room] course] students]. simpl.
    rewrite <- list_fmap_compose. apply list_fmap_id.
  - rewrite length_fmap. apply group_allocations_length.
  - apply Forall_fmap, Forall_forall.
    intros [[[[[[iso date] day] session] room] course] students] _. simpl.
    split; [by rewrite length_fmap|].
    apply Forall_fmap, Forall_true. done.
Qed.

(** * The grid of student cards *)

Section GridFacts.
Context {A C : Type} (card : A → C).

Lemma pad_row_spec fuel (row : list (cell C)) :
  (columns ≤ length row + fuel)%nat →
  pad_row fuel row = row ++ replicate (columns - length row) Blank.
Proof.
  revert row. induction fuel as [|fuel IH]; intros row Hfuel; simpl.
  - replace (columns - length row)%nat with 0%nat by lia.
    by rewrite app_nil_r.
  - destruct (decide (length row < columns)%nat) as [Hlt|Hge].
    + rewrite IH by (rewrite length_app; simpl; lia).
      rewrite length_app. simpl. rewrite <- app_assoc. f_equal.
      replace (columns - length row)%nat
        with (S (columns - (length row + 1)))%nat by lia.
      done.
    + replace (columns - length row)%nat with 0%nat by lia.
      by rewrite app_nil_r.
Qed.

(** The invariant of [for student in students]. *)
Lemma grid_loop_spec students (grid : list (list (cell C))) row :
  Forall (λ r, length r = columns) grid → (length row < columns)%nat →
  let out := grid_loop card students grid row in
  Forall (λ r, length r = columns) out.1 ∧ (length out.2 < columns)%nat ∧
  concat out.1 ++ out.2 =
  concat grid ++ row ++ (Card ∘ card <$> students).
Proof.
  revert grid row. induction students as [|s students IH];
    intros grid row Hgrid Hrow; simpl.
  { by rewrite app_nil_r. }
  destruct (decide (length (row ++ [Card (card s)]) = columns)) as [Hfull|Hnot].
  - destruct (IH (grid ++ [row ++ [Card (card s)]]) []) as (H1 & H2 & H3).
    + apply Forall_app. split; [done|]. by constructor.
    + unfold columns. simpl. lia.
    + split; [done|]. split; [done|]. rewrite H3.
      rewrite concat_app. simpl. by rewrite app_nil_r, <- !app_assoc.
  - destruct (IH grid (row ++ [Card (card s)])) as (H1 & H2 & H3).
    + done.
    + rewrite length_app in *. simpl in *. lia.
    + split; [done|]. split; [done|]. rewrite H3.
      by rewrite <- !app_assoc.
Qed.

(** X11: the grid of student cards has rows of exactly three cells; read
    row by row it is the cards of the students in order, followed by
    fewer than three blank cells; and it has ⌈n/3⌉ rows for n students,
    none when there is no student. *)
Theorem student_grid_shape (students : list A) :
  let grid := student_grid card students in
  Forall (λ r, length r = columns) grid ∧
  (∃ k, (k < columns)%nat ∧
        concat grid = (Card ∘ card <$> students) ++ replicate k Blank) ∧
  length grid = ((length students + 2) / 3)%nat.
Proof.
  intros grid.
  assert (Forall (λ r, length r = columns) grid ∧
          ∃ k, (k < columns)%nat ∧
               concat grid = (Card ∘ card <$> students) ++ replicate k Blank)
    as [Hrows Hcells].
  { subst grid. unfold student_grid.
    destruct (grid_loop_spec students [] []) as (H1 & H2 & H3);
      [done|simpl; unfold columns; lia|].
    destruct (grid_loop card students [] []) as [g row].
    cbn [fst snd concat app] in *.
    destruct row as [|c row]; cbv iota beta.
    - split; [done|]. exists 0%nat. split; [unfold columns; lia|].
      by rewrite app_nil_r in *.
    - rewrite pad_row_spec by lia. split.
      + apply Forall_app. split; [done|]. constructor; [|done].
        rewrite length_app, length_replicate. lia.
      + exists (columns - length (c :: row))%nat.
        split; [simpl; unfold columns; lia|].
        rewrite concat_app. cbn [concat]. rewrite app_nil_r, app_assoc.
        by rewrite H3. }
  split; [done|]. split; [done|].
  destruct Hcells as (k & Hk & Hcat).
  assert (length (concat grid) = 3 * length grid)%nat as Hlen.
  { clear -Hrows. induction Hrows as [|r g Hr _ IH]; simpl; [done|].
    rewrite length_app, IH, Hr. unfold columns. lia. }
  rewrite Hcat, length_app, length_fmap, length_replicate in Hlen.
  unfold columns in Hk.
  apply (Nat.div_unique _ 3 _ (2 - k)); lia.
Qed.
End GridFacts.

(** * One sheet per record *)

Lemma extend_group_fresh key students (grouped : list (sheet_key * list string)) :
  key ∉ grouped.*1 → extend_group key students grouped = grouped ++ [(key, students)].
Proof.
  induction grouped as [|[k l] g IH]; [done|]. csimpl. intros Hout.
  rewrite decide_False by (intros ->; apply Hout; by left).
  rewrite IH; [done|]. intros Hin. apply Hout. by right.
Qed.

Lemma group_loop_distinct log (grouped : list (sheet_key * list string)) :
  NoDup (grouped.*1 ++ (key_of <$> log)) →
  foldl (λ grouped alloc,
           extend_group (key_of alloc) (Alloc.Students alloc) grouped)
        grouped log =
  grouped ++ ((λ a, (key_of a, Alloc.Students a)) <$> log).
Proof.
  revert grouped. induction log as [|a log IH]; intros g Hnd; csimpl.
  { by rewrite app_nil_r. }
  assert (key_of a ∉ g.*1) as Hfresh.
  { apply NoDup_app in Hnd as (_ & Hdisj & _). intros Hin.
    apply (Hdisj _ Hin). by left. }
  rewrite extend_group_fresh by done. rewrite IH.
  - by rewrite <- app_assoc.
  - rewrite fmap_app, <- app_assoc. exact Hnd.
Qed.

Section Pairs.
Context (si : Slot.t) (buf : Z) (mode : string).

Lemma allocate_rooms_room_names c st rs :
  Alloc.Room <$> (allocate_rooms si buf mode c st rs []).1.2
    `sublist_of` Room.Room <$> rs.
Proof.
  revert st. induction rs as [|r rs IH]; intros st; csimpl; [done|].
  destruct st as [|s st]; csimpl; [apply sublist_nil_l|].
  destruct (seat_cases si buf mode c (s :: st) r []) as [(_ & _ & _ & ->)|[_ ->]].
  - rewrite allocate_rooms_log. specialize (IH (drop (Z.to_nat (take_count buf mode (s :: st) r)) (s :: st))).
    destruct (allocate_rooms si buf mode c _ rs []) as [[rs' new'] st''].
    csimpl in *. by apply sublist_skip.
  - specialize (IH (s :: st)).
    destruct (allocate_rooms si buf mode c (s :: st) rs []) as [[rs' new'] st''].
    csimpl in *. by apply sublist_cons.
Qed.

Lemma allocate_courses_pairs enr cs rs :
  NoDup (Room.Room <$> rs) → NoDup (rosters enr cs) →
  NoDup ((λ a, (Alloc.Course a, Alloc.Room a))
           <$> (allocate_courses si buf mode enr cs rs []).2).
Proof.
  revert rs. induction cs as [|c0 cs IH]; intros rs Hnames Hnd; simpl.
  { constructor. }
  pose proof (NoDup_rosters_head enr c0 cs Hnd) as Hhead.
  rewrite rosters_cons in Hnd. apply NoDup_app in Hnd as (_ & _ & Hcs).
  destruct (get_list enr c0) as [|s st] eqn:Hroster; [by apply IH|].
  assert (c0 ∉ cs) as Hfresh by (by apply Hhead).
  pose proof (allocate_rooms_room_names c0 (s :: st) rs) as Hsub.
  destruct (allocate_rooms_students si buf mode c0 (s :: st) rs) as [_ Hc0].
  pose proof (allocate_rooms_rel si buf mode (room_step buf) c0 _
                (seat_room_step si buf mode c0) (s :: st) rs []) as Hstep.
  destruct (allocate_rooms si buf mode c0 (s :: st) rs []) as [[rs' new] st'].
  rewrite allocate_courses_log.
  pose proof (allocate_courses_courses si buf mode enr cs rs') as Hin.
  apply room_step_names in Hstep as [Hsame _]. simpl in Hsame.
  rewrite <- Hsame in Hnames. specialize (IH rs' Hnames Hcs).
  destruct (allocate_courses si buf mode enr cs rs' []) as [rs'' new'].
  simpl in *. rewrite fmap_app. apply NoDup_app. split; [|split; [|done]].
  - apply (NoDup_fmap_1 snd). rewrite <- list_fmap_compose.
    eapply sublist_NoDup; [|exact Hsub]. by rewrite <- Hsame.
  - intros p (a & -> & Ha)%list_elem_of_fmap (a' & Heq & Ha')%list_elem_of_fmap.
    rewrite Forall_forall in Hc0, Hin.
    apply Hfresh. rewrite <- (Hc0 a Ha).
    injection Heq as -> _. by apply Hin.
Qed.
End Pairs.

Lemma new_records_pairs si buf mode self :
  NoDup (Room.Room <$> rooms self) →
  NoDup ((λ a, (Alloc.Course a, Alloc.Room a)) <$> new_records si buf mode self).
Proof.
  intros Hnames. destruct (check_clashes (Slot.Courses si) self).1 eqn:Hc.
  - rewrite new_records_clash by done. constructor.
  - rewrite new_records_clean by done. apply allocate_courses_pairs.
    + rewrite <- list_fmap_compose. exact Hnames.
    + by apply sort_courses_rosters, check_clashes_false.
Qed.

Lemma new_records_slot_id si buf mode self a :
  a ∈ new_records si buf mode self →
  (Alloc.IsoDate a, Alloc.Date a, Alloc.Day a, Alloc.Session a) = slot_id si.
Proof.
  destruct (check_clashes (Slot.Courses si) self).1 eqn:Hc.
  { rewrite new_records_clash by done. by intros ?%elem_of_nil. }
  rewrite new_records_clean by done. intros Ha.
  assert (Forall (record_of_slot si)
            (allocate_courses si buf mode (course_enrollments self)
               (sort_courses (course_enrollments self) (Slot.Courses si))
               (reset <$> rooms self) []).2) as Hrec.
  { apply (allocate_courses_records si buf mode (λ _, True)); [done| |].
    - intros c st r _. eapply Forall_impl; [apply seat_record_of_slot|].
      by intros a' [? _].
    - by apply Forall_true. }
  rewrite Forall_forall in Hrec.
  destruct (Hrec a Ha) as (H1 & H2 & H3 & H4 & _).
  unfold slot_id. by rewrite H1, H2, H3, H4.
Qed.

Lemma run_keys_distinct slots buf mode self :
  NoDup (Room.Room <$> rooms self) → NoDup (slot_id <$> slots) →
  NoDup (key_of <$> (slots ≫= λ si, new_records si buf mode self)).
Proof.
  intros Hnames. induction slots as [|si slots IH]; csimpl; [constructor|].
  intros [Hsi Hslots]%NoDup_cons. rewrite fmap_app. apply NoDup_app.
  split; [|split; [|by apply IH]].
  - apply (NoDup_fmap_1 (λ k : sheet_key, (k.2, k.1.2))).
    rewrite <- list_fmap_compose. by apply new_records_pairs.
  - intros k (a & -> & Ha)%list_elem_of_fmap (a' & Heq & Ha')%list_elem_of_fmap.
    apply list_elem_of_bind in Ha' as (si' & Ha' & Hsi').
    apply Hsi. apply new_records_slot_id in Ha, Ha'.
    rewrite <- Ha. unfold key_of in Heq. injection Heq as -> -> -> -> _ _.
    rewrite Ha'. by apply list_elem_of_fmap_2.
Qed.

(** X12: after a run that starts with an empty log, with distinct room
    names and a schedule whose slots differ in date, day or session,
    every Allocation Record has a sheet of its own: the sheets are, in
    log order, one per record, each listing that record's candidates. *)
Theorem one_sheet_per_record isalnum os_path_join buf choice self :
  allocations self = [] →
  NoDup (Room.Room <$> rooms self) → NoDup (slot_id <$> schedule self) →
  let self' := (process_schedule buf choice self).2 in
  generate_attendance_sheets isalnum os_path_join self' =
  (λ a, sheet isalnum os_path_join (student_names self)
              (key_of a, Alloc.Students a)) <$> allocations self'.
Proof.
  intros Hlog Hnames Hslots self'. subst self'.
  rewrite process_schedule_run.
  set (mode := lower (label choice)).
  destruct (for_slots_logs (schedule self) buf mode self) as [Hal _].
  destruct (for_slots_frame (schedule self) buf mode self) as (_ & _ & Hnm & _).
  unfold generate_attendance_sheets. rewrite Hnm, Hal, Hlog. simpl.
  unfold group_allocations. rewrite group_loop_distinct.
  - simpl. by rewrite <- list_fmap_compose.
  - simpl. by apply run_keys_distinct.
Qed.

Lemma one_sheet_per_record_witness :
  generate_attendance_sheets (λ _, true) (λ d f, d +:+ "/" +:+ f)
    (process_schedule 0 Dense two_slots).2 =
  (λ a, sheet (λ _, true) (λ d f, d +:+ "/" +:+ f) (student_names two_slots)
              (key_of a, Alloc.Students a))
    <$> allocations (process_schedule 0 Dense two_slots).2.
Proof.
  apply (one_sheet_per_record (λ _, true) (λ d f, d +:+ "/" +:+ f) 0 Dense
           two_slots).
  - reflexivity.
  - apply (bool_decide_unpack _). vm_compute. exact I.
  - apply (bool_decide_unpack _). vm_compute. exact I.
Defined.

(** * Rooms in pool order *)

Section RoomOrder.
Context (si : Slot.t) (buf : Z) (mode : string).

Lemma allocate_courses_course_rooms enr cs rs c :
  NoDup (rosters enr cs) →
  Alloc.Room <$> filter (λ a, Alloc.Course a = c)
                        (allocate_courses si buf mode enr cs rs []).2
    `sublist_of` Room.Room <$> rs.
Proof.
  revert rs. induction cs as [|c0 cs IH]; intros rs Hnd; simpl.
  { apply sublist_nil_l. }
  pose proof (NoDup_rosters_head enr c0 cs Hnd) as Hhead.
  rewrite rosters_cons in Hnd. apply NoDup_app in Hnd as (_ & _ & Hcs).
  destruct (get_list enr c0) as [|s st] eqn:Hroster; [by apply IH|].
  assert (c0 ∉ cs) as Hfresh by (by apply Hhead).
  pose proof (allocate_rooms_room_names si buf mode c0 (s :: st) rs) as Hsub.
  destruct (allocate_rooms_students si buf mode c0 (s :: st) rs) as [_ Hc0].
  pose proof (allocate_rooms_rel si buf mode (room_step buf) c0 _
                (seat_room_step si buf mode c0) (s :: st) rs []) as Hstep.
  destruct (allocate_rooms si buf mode c0 (s :: st) rs []) as [[rs' new] st'].
  rewrite allocate_courses_log.
  pose proof (allocate_courses_courses si buf mode enr cs rs') as Hin.
  apply room_step_names in Hstep as [Hsame _]. simpl in Hsame.
  specialize (IH rs' Hcs). rewrite Hsame in IH.
  destruct (allocate_courses si buf mode enr cs rs' []) as [rs'' new'].
  simpl in *. rewrite filter_app, fmap_app.
  rewrite Forall_forall in Hc0, Hin.
  destruct (decide (c = c0)) as [->|Hne].
  - rewrite (filter_all _ new) by done.
    rewrite (filter_none _ new'), app_nil_r; [done|].
    intros a Ha Heq. apply Hfresh. rewrite <- Heq. by apply Hin.
  - rewrite (filter_none _ new); [done|].
    intros a Ha Heq. rewrite (Hc0 a Ha) in Heq. congruence.
Qed.
End RoomOrder.

(** X13: the records that a call appends for one course name rooms in
    pool order, each room at most once: the candidates of a course, who
    are seated in roster order, go to the rooms in the order of the pool
    and never back to an earlier room. *)
Theorem course_rooms_in_pool_order si buf mode self c :
  Alloc.Room <$> filter (λ a, Alloc.Course a = c) (new_records si buf mode self)
    `sublist_of` Room.Room <$> rooms self.
Proof.
  destruct (check_clashes (Slot.Courses si) self).1 eqn:Hc.
  - rewrite new_records_clash by done. apply sublist_nil_l.
  - rewrite new_records_clean by done.
    pose proof (allocate_courses_course_rooms si buf mode
                  (course_enrollments self)
                  (sort_courses (course_enrollments self) (Slot.Courses si))
                  (reset <$> rooms self) c) as Hsub.
    rewrite <- list_fmap_compose in Hsub. apply Hsub.
    by apply sort_courses_rosters, check_clashes_false.
Qed.

(** * The loader *)

Section LoadingFacts.
Context (strip : string → string).

(** X14: [clean_text] yields either the empty string or the stripped
    text, never a text that reads "nan" in any case of letters; and,
    [strip] leaving a stripped text and the empty text as they are,
    cleaning a cleaned text changes nothing. *)
Theorem clean_text_idempotent text :
  strip (strip text) = strip text → strip "" = "" →
  clean_text strip (clean_text strip text) = clean_text strip text ∧
  lower (clean_text strip text) ≠ "nan" ∧
  (clean_text strip text = "" ∨ clean_text strip text = strip text).
Proof.
  intros Hidem Hempty. unfold clean_text at 2 3 4 5 6.
  destruct (decide (lower (strip text) = "nan" ∨ strip text = "")) as [Hbad|Hok].
  - split; [|split; [intros H; simpl in H; discriminate H|by left]].
    unfold clean_text. rewrite Hempty. cbv zeta.
    destruct (decide (lower "" = "nan" ∨ "" = "")) as [_|Hno]; [done|].
    exfalso. apply Hno. by right.
  - split; [|split; [|by right]].
    + unfold clean_text. rewrite Hidem. cbv zeta.
      by destruct (decide (lower (strip text) = "nan" ∨ strip text = "")).
    + intros Hnan. apply Hok. by left.
Qed.

Lemma rolls_for_cons c row rows :
  rolls_for strip c (row :: rows) =
  (if decide (clean_text strip row.1 = c ∧ clean_text strip row.2 ≠ "")
   then [clean_text strip row.2] else []) ++ rolls_for strip c rows.
Proof.
  unfold rolls_for. rewrite filter_cons.
  by destruct (decide (clean_text strip row.1 = c ∧ clean_text strip row.2 ≠ "")).
Qed.

Lemma add_enrollment_get enr row c :
  c ≠ "" →
  get_list (add_enrollment strip enr row) c =
  get_list enr c ++ rolls_for strip c [row].
Proof.
  intros Hc. rewrite rolls_for_cons. unfold rolls_for, add_enrollment. simpl.
  rewrite app_nil_r.
  destruct (decide (clean_text strip row.1 ≠ "" ∧ clean_text strip row.2 ≠ ""))
    as [[Hcode Hroll]|Hno].
  - destruct (decide (clean_text strip row.1 = c)) as [<-|Hne].
    + rewrite get_list_insert_eq. by rewrite decide_True.
    + rewrite get_list_insert_ne by done.
      rewrite decide_False by (by intros [? _]). by rewrite app_nil_r.
  - rewrite decide_False; [by rewrite app_nil_r|].
    intros [<- Hroll]. by apply Hno.
Qed.

Lemma load_loop_get rows enr c :
  c ≠ "" →
  get_list (foldl (add_enrollment strip) enr rows) c =
  get_list enr c ++ rolls_for strip c rows.
Proof.
  intros Hc. revert enr. induction rows as [|row rows IH]; intros enr; simpl.
  { by rewrite app_nil_r. }
  rewrite IH, add_enrollment_get by done.
  rewrite (rolls_for_cons c row rows), (rolls_for_cons c row []).
  unfold rolls_for at 1. simpl. by rewrite app_nil_r, <- app_assoc.
Qed.

Lemma add_enrollment_ok enr row :
  map_Forall roster_ok enr → map_Forall roster_ok (add_enrollment strip enr row).
Proof.
  intros Hok. unfold add_enrollment.
  destruct (decide (clean_text strip row.1 ≠ "" ∧ clean_text strip row.2 ≠ ""))
    as [[Hcode Hroll]|Hno]; [|done].
  apply map_Forall_insert_2; [|done].
  split; [done|]. split; [by destruct (get_list enr _)|].
  intros [Hin|Hin%list_elem_of_singleton]%elem_of_app; [|done].
  unfold get_list in Hin.
  destruct (enr !! clean_text strip row.1) as [roster|] eqn:Hc.
  - by destruct (Hok _ _ Hc) as (_ & _ & ?).
  - by apply elem_of_nil in Hin.
Qed.

Lemma load_loop_ok rows enr :
  map_Forall roster_ok enr →
  map_Forall roster_ok (foldl (add_enrollment strip) enr rows).
Proof.
  revert enr. induction rows as [|row rows IH]; intros enr Hok; [done|].
  simpl. by apply IH, add_enrollment_ok.
Qed.

Global Instance string_le_total : Total string_le.
Proof. intros a b. apply String.leb_total. Qed.

Lemma loaded_rosters_perm rows c :
  c ≠ "" → get_list (load_enrollments strip rows ∅) c ≡ₚ rolls_for strip c rows.
Proof.
  intros Hc. unfold load_enrollments.
  rewrite <- (app_nil_l (rolls_for strip c rows)).
  change [] with (get_list ∅ c) at 1.
  rewrite <- (load_loop_get rows ∅ c Hc). unfold get_list.
  rewrite lookup_fmap.
  destruct (foldl (add_enrollment strip) ∅ rows !! c) as [l|]; simpl; [|done].
  apply merge_sort_Permutation.
Qed.

(** X15: the enrollment index that the loader builds from nothing has,
    for every course code that is not empty, the cleaned non-empty rolls
    of the rows of that course, all of them and as often as the rows
    give them, rearranged in ascending order; no roster is empty, none
    has an empty roll, and the empty course code has no roster. *)
Theorem loaded_rosters rows :
  let enr := load_enrollments strip rows ∅ in
  (∀ c roster, enr !! c = Some roster →
     c ≠ "" ∧ roster ≠ [] ∧ ("" ∉ roster) ∧ Sorted string_le roster) ∧
  (∀ c, c ≠ "" → get_list enr c ≡ₚ rolls_for strip c rows).
Proof.
  intros enr. subst enr. unfold load_enrollments. split.
  - intros c roster. rewrite lookup_fmap.
    destruct (foldl (add_enrollment strip) ∅ rows !! c) as [l|] eqn:Hl; [|done].
    intros [= <-].
    destruct (load_loop_ok rows ∅ (map_Forall_empty _) c l Hl) as (Hc & Hne & Hin).
    pose proof (merge_sort_Permutation string_le l) as Hperm.
    fold (sort_strings l) in Hperm.
    split; [done|]. split; [|split].
    + intros Hnil. rewrite Hnil in Hperm. symmetry in Hperm.
      by apply Permutation_nil_r in Hperm.
    + by rewrite Hperm.
    + apply Sorted_merge_sort. apply _.
  - intros c Hc. by apply loaded_rosters_perm.
Qed.

(** X16: a doubled row blocks its course: when the rows of the
    course-roll sheet give some roll twice for a course, every slot with
    that course is flagged as a clash, and [allocate_session] appends no
    Allocation Record and no Room Statistic for it. *)
Theorem doubled_row_blocks_course rows si buf mode self c :
  course_enrollments self = load_enrollments strip rows ∅ →
  c ≠ "" → ¬ NoDup (rolls_for strip c rows) → c ∈ Slot.Courses si →
  (check_clashes (Slot.Courses si) self).1 = true ∧
  new_records si buf mode self = [] ∧ new_stats si buf mode self = [].
Proof.
  intros Henr Hc Hdup Hin.
  assert ((check_clashes (Slot.Courses si) self).1 = true) as Hclash.
  { apply check_clashes_true. intros Hnd. apply Hdup.
    pose proof (NoDup_rosters_roster _ _ c Hnd Hin) as Hroster.
    rewrite Henr in Hroster.
    by rewrite <- (loaded_rosters_perm rows c Hc). }
  split; [done|]. split; [by apply new_records_clash|].
  unfold new_stats. rewrite after_clash by done. simpl. apply appended_same.
Qed.

(** ** Names *)

Lemma names_for_cons r row rows :
  names_for strip r (row :: rows) =
  (if decide (clean_text strip row.1 = r) then [clean_text strip row.2] else [])
  ++ names_for strip r rows.
Proof.
  unfold names_for. rewrite filter_cons.
  by destruct (decide (clean_text strip row.1 = r)).
Qed.

Lemma csv_loop_lookup rows names r :
  r ≠ "" →
  foldl (add_csv_name strip) names rows !! r =
  match last (names_for strip r rows) with
  | Some n => Some n
  | None => names !! r
  end.
Proof.
  intros Hr. revert names. induction rows as [|row rows IH]; intros names; [done|].
  simpl. rewrite IH, names_for_cons. unfold add_csv_name.
  destruct (decide (clean_text strip row.1 = r)) as [Heq|Hne]; simpl.
  - rewrite decide_True by congruence. rewrite Heq, lookup_insert_eq.
    by destruct (names_for strip r rows) as [|n l] using rev_ind;
      [|rewrite app_comm_cons, !last_snoc].
  - destruct (decide (clean_text strip row.1 ≠ "")); [|done].
    by rewrite lookup_insert_ne.
Qed.

Lemma sheet_loop_lookup rows names r :
  r ≠ "" →
  foldl (add_sheet_name strip) names rows !! r =
  match names !! r with
  | Some n => Some n
  | None => head (names_for strip r rows)
  end.
Proof.
  intros Hr. revert names. induction rows as [|row rows IH]; intros names.
  { simpl. by destruct (names !! r). }
  simpl. rewrite IH, names_for_cons. unfold add_sheet_name.
  destruct (decide (clean_text strip row.1 = r)) as [Heq|Hne]; simpl.
  - rewrite Heq. destruct (names !! r) as [n|] eqn:Hn.
    + rewrite decide_False by (intros [_ ?]; congruence). by rewrite Hn.
    + rewrite decide_True by done. by rewrite lookup_insert_eq.
  - destruct (decide (clean_text strip row.1 ≠ "" ∧
                      names !! clean_text strip row.1 = None)); [|done].
    by rewrite lookup_insert_ne.
Qed.

Lemma csv_loop_empty rows names :
  foldl (add_csv_name strip) names rows !! "" = names !! "".
Proof.
  revert names. induction rows as [|row rows IH]; intros names; [done|].
  simpl. rewrite IH. unfold add_csv_name.
  destruct (decide (clean_text strip row.1 ≠ "")); [|done].
  by rewrite lookup_insert_ne.
Qed.

Lemma sheet_loop_empty rows names :
  foldl (add_sheet_name strip) names rows !! "" = names !! "".
Proof.
  revert names. induction rows as [|row rows IH]; intros names; [done|].
  simpl. rewrite IH. unfold add_sheet_name.
  destruct (decide (clean_text strip row.1 ≠ "" ∧
                    names !! clean_text strip row.1 = None)) as [[Hne _]|]; [|done].
  by rewrite lookup_insert_ne.
Qed.

(** X17: the name that the loader keeps for a roll is the cleaned name
    of the last row of the CSV mapping with that roll; when the CSV has
    no such row, it is that of the first such row of the roll-name
    sheet; when neither has one, the roll has no name (and the sheets
    will print "Unknown").  The empty roll never has a name. *)
Theorem loaded_names csv_rows sheet_rows r :
  let names := load_names strip csv_rows sheet_rows ∅ in
  names !! "" = None ∧
  (r ≠ "" →
   names !! r =
   match last (names_for strip r csv_rows) with
   | Some n => Some n
   | None => head (names_for strip r sheet_rows)
   end).
Proof.
  intros names. subst names. unfold load_names. split.
  - by rewrite sheet_loop_empty, csv_loop_empty.
  - intros Hr. rewrite sheet_loop_lookup, csv_loop_lookup by done.
    rewrite lookup_empty. by destruct (last (names_for strip r csv_rows)).
Qed.

(** ** Rooms *)

Lemma insert_by_perm {A} (key : A → Z) x l : insert_by key x l ≡ₚ x :: l.
Proof.
  induction l as [|y l IH]; simpl; [done|].
  destruct (decide (key y < key x)); [|done].
  rewrite IH. apply Permutation_swap.
Qed.

Lemma sort_by_perm {A} (key : A → Z) l : sort_by key l ≡ₚ l.
Proof.
  induction l as [|x l IH]; simpl; [done|].
  by rewrite insert_by_perm, IH.
Qed.

Lemma insert_by_sorted {A} (key : A → Z) x l :
  StronglySorted (λ a b, key a ≤ key b) l →
  StronglySorted (λ a b, key a ≤ key b) (insert_by key x l).
Proof.
  induction l as [|y l IH]; simpl; intros Hs.
  - repeat constructor.
  - apply StronglySorted_inv in Hs as [Hl Hy].
    destruct (decide (key y < key x)) as [Hlt|Hge].
    + constructor; [by apply IH|].
      rewrite insert_by_perm. constructor; [lia|done].
    + constructor; [by constructor|].
      constructor; [lia|].
      eapply Forall_impl; [exact Hy|]. intros; simpl in *; lia.
Qed.

Lemma sort_by_sorted {A} (key : A → Z) l :
  StronglySorted (λ a b, key a ≤ key b) (sort_by key l).
Proof.
  induction l as [|x l IH]; simpl; [constructor|].
  by apply insert_by_sorted.
Qed.

Lemma insert_by_filter {A} (key : A → Z) k x l :
  filter (λ c, key c = k) (insert_by key x l) =
  filter (λ c, key c = k) (x :: l).
Proof.
  induction l as [|y l IH]; simpl; [done|].
  destruct (decide (key y < key x)) as [Hlt|Hge]; [|done].
  rewrite filter_cons, IH, !filter_cons.
  repeat case_decide; try done; lia.
Qed.

Lemma sort_by_stable {A} (key : A → Z) k l :
  filter (λ c, key c = k) (sort_by key l) = filter (λ c, key c = k) l.
Proof.
  induction l as [|x l IH]; simpl; [done|].
  by rewrite insert_by_filter, !filter_cons, IH.
Qed.

Lemma append_rooms_valid rows rooms :
  Forall (λ row, row.2 ≠ Invalid) rows →
  append_rooms strip rows rooms = (rooms ++ (room_of strip <$> rows), true).
Proof.
  revert rooms. induction rows as [|[name cell] rows IH]; intros rooms Hok.
  { simpl. by rewrite app_nil_r. }
  apply Forall_cons in Hok as [Hcell Hrows]. simpl in *.
  destruct cell as [|n|]; [| |done];
    rewrite IH by done; by rewrite <- app_assoc.
Qed.

Lemma append_rooms_invalid before row after rooms :
  Forall (λ row, row.2 ≠ Invalid) before → row.2 = Invalid →
  append_rooms strip (before ++ row :: after) rooms =
  (rooms ++ (room_of strip <$> before), false).
Proof.
  revert rooms. induction before as [|[name cell] before IH];
    intros rooms Hok Hbad.
  { simpl. rewrite Hbad. by rewrite app_nil_r. }
  apply Forall_cons in Hok as [Hcell Hrows]. simpl in *.
  destruct cell as [|n|]; [| |done];
    rewrite IH by done; by rewrite <- app_assoc.
Qed.

(** X18: when [int(...)] accepts every capacity cell that is not
    missing, the room loop of the loader, started on an empty pool, runs to
    its end and leaves one room per row of the room sheet, empty (fill 0,
    no assignments), with capacity 0 for a missing cell, in descending
    order of capacity, the rooms of one capacity in the order of their
    rows.  When [int(...)] raises on some capacity cell, the loop stops
    at the first such row and the load fails: the pool is left with the
    rooms of the rows before it, in row order and not sorted. *)
Theorem loaded_rooms rows :
  let out := load_rooms strip rows [] in
  (Forall (λ row, row.2 ≠ Invalid) rows →
   out.2 = true ∧
   out.1 ≡ₚ room_of strip <$> rows ∧
   StronglySorted (λ a b, Room.Capacity b ≤ Room.Capacity a) out.1 ∧
   (∀ k, filter (λ r, Room.Capacity r = k) out.1 =
         filter (λ r, Room.Capacity r = k) (room_of strip <$> rows)) ∧
   Forall (λ r, Room.filled r = 0 ∧ Room.assignments r = ∅) out.1) ∧
  (∀ before row after,
     rows = before ++ row :: after →
     Forall (λ row, row.2 ≠ Invalid) before → row.2 = Invalid →
     out = (room_of strip <$> before, false)).
Proof.
  intros out. subst out. unfold load_rooms. split.
  - intros Hok. rewrite append_rooms_valid by done. simpl.
    split; [done|]. split; [apply sort_by_perm|]. split; [|split].
    + pose proof (sort_by_sorted (λ x, - Room.Capacity x)
                    (room_of strip <$> rows)) as Hs.
      induction Hs as [|r l _ IH Hr]; constructor; [done|].
      eapply Forall_impl; [exact Hr|]. intros r'; simpl; lia.
    + intros k.
      rewrite (list_filter_iff (λ r, Room.Capacity r = k)
                 (λ r, - Room.Capacity r = - k)) by (intros r; lia).
      rewrite sort_by_stable. apply list_filter_iff. intros r; lia.
    + rewrite sort_by_perm. apply Forall_fmap, Forall_true. done.
  - intros before row after -> Hok Hbad.
    by rewrite append_rooms_invalid.
Qed.
End LoadingFacts.

(** X19: with an enrollment index built by the loader from rows that
    give no roll twice for a course of the slot, and a slot that lists no
    course twice, the clash detector flags the slot exactly when two of
    its courses share a candidate. *)
Theorem loaded_index_clash_iff strip rows courses self :
  course_enrollments self = load_enrollments strip rows ∅ →
  NoDup courses →
  (∀ c, c ∈ courses → NoDup (rolls_for strip c rows)) →
  (check_clashes courses self).1 = true ↔
  shares_candidate (course_enrollments self) courses.
Proof.
  intros Henr Hcourses Hrows. rewrite check_clashes_true. split.
  - intros Hclash.
    destruct (shares_candidate_dec (course_enrollments self) courses)
      as [Hyes|Hno]; [done|].
    exfalso. apply Hclash. apply NoDup_rosters_intro; [done| |done].
    intros c Hc. rewrite Henr.
    destruct (decide (c = "")) as [->|Hne].
    + unfold get_list, load_enrollments. rewrite lookup_fmap.
      destruct (foldl (add_enrollment strip) ∅ rows !! "") as [l|] eqn:Hl;
        [|constructor].
      by destruct (load_loop_ok strip rows ∅ (map_Forall_empty _) "" l Hl)
        as (? & _).
    + rewrite (loaded_rosters_perm strip rows c Hne). by apply Hrows.
  - apply shares_candidate_clash.
Qed.

(** ** The loader on sample sheets *)

Lemma clean_text_idempotent_witness :
  clean_text strip_blanks (clean_text strip_blanks "  CS101 ") =
    clean_text strip_blanks "  CS101 " ∧
  lower (clean_text strip_blanks "  CS101 ") ≠ "nan" ∧
  (clean_text strip_blanks "  CS101 " = "" ∨
   clean_text strip_blanks "  CS101 " = strip_blanks "  CS101 ").
Proof.
  apply (clean_text_idempotent strip_blanks "  CS101 "); reflexivity.
Defined.

Lemma loaded_rosters_witness :
  get_list (load_enrollments strip_blanks
              [("B", "r3"); ("A", " r2"); ("nan", "r9"); ("A ", "r1")] ∅) "A"
  ≡ₚ ["r2"; "r1"].
Proof.
  apply (loaded_rosters strip_blanks
           [("B", "r3"); ("A", " r2"); ("nan", "r9"); ("A ", "r1")]).
  intros H. discriminate H.
Defined.

Lemma doubled_row_blocks_course_witness :
  (check_clashes ["A"; "B"] doubled_row).1 = true ∧
  new_records (sample_slot ["A"; "B"]) 5 "dense" doubled_row = [] ∧
  new_stats (sample_slot ["A"; "B"]) 5 "dense" doubled_row = [].
Proof.
  apply (doubled_row_blocks_course strip_blanks
           [("A", "r1"); ("A", " r2"); ("B", "r3"); ("A ", "r1")]
           (sample_slot ["A"; "B"]) 5 "dense" doubled_row "A").
  - reflexivity.
  - intros H. discriminate H.
  - apply (bool_decide_unpack _). vm_compute. exact I.
  - left.
Defined.

Lemma loaded_names_witness :
  load_names strip_blanks [("r1", "Asha"); ("r1 ", "Asha K")]
             [("r1", "A. K."); ("r2", "Ravi"); ("r2", "R.")] ∅ !! "r2" =
  Some "Ravi".
Proof.
  apply (loaded_names strip_blanks [("r1", "Asha"); ("r1 ", "Asha K")]
           [("r1", "A. K."); ("r2", "Ravi"); ("r2", "R.")] "r2").
  intros H. discriminate H.
Defined.

Lemma loaded_index_clash_iff_witness :
  (check_clashes ["A"; "B"] loaded_clashing).1 = true ↔
  shares_candidate (course_enrollments loaded_clashing) ["A"; "B"].
Proof.
  apply (loaded_index_clash_iff strip_blanks
           [("A", "r1"); ("A", "r2"); ("B", "r2"); ("B", "r3")]
           ["A"; "B"] loaded_clashing).
  - reflexivity.
  - apply (bool_decide_unpack _). vm_compute. exact I.
  - intros c Hc. apply (bool_decide_unpack _).
    apply elem_of_cons in Hc as [->|Hc]; [vm_compute; exact I|].
    apply list_elem_of_singleton in Hc as ->. vm_compute. exact I.
Defined.

Lemma loaded_rooms_witness :
  load_rooms strip_blanks
    [("R1", Number 10); ("R2", Invalid); ("R3", Number 30)] [] =
    ([Room.mk "R1" 10 0 ∅], false) ∧
  (load_rooms strip_blanks
     [("R1", Number 10); (" R2", Missing); ("R3", Number 30)] []).1 ≡ₚ
    [Room.mk "R1" 10 0 ∅; Room.mk "R2" 0 0 ∅; Room.mk "R3" 30 0 ∅].
Proof.
  split.
  - destruct (loaded_rooms strip_blanks
                [("R1", Number 10); ("R2", Invalid); ("R3", Number 30)])
      as [_ Hstop].
    apply (Hstop [("R1", Number 10)] ("R2", Invalid) [("R3", Number 30)]).
    + reflexivity.
    + repeat constructor. simpl. discriminate.
    + reflexivity.
  - destruct (loaded_rooms strip_blanks
                [("R1", Number 10); (" R2", Missing); ("R3", Number 30)])
      as [Hall _].
    destruct Hall as (_ & Hperm & _); [|exact Hperm].
    repeat constructor; simpl; discriminate.
Defined.
